(** * Local History reader: a model of [history-parser.ts] and [index.ts]

    The development embeds the history-store reader ([uriToPath],
    [pathToUri], [VSCodeHistoryParser]) and the tool handlers of
    [LocalHistoryMCPServer] that restore a file and search the history
    ([restoreFromHistory], [searchHistoryContent]).

    Conventions.
    - A JavaScript string is the list of its UTF-16 code units.
    - A function that may throw returns [option]: [None] is the exception.
    - The file system is an explicit state; functions that write return
      the new state.
    - What the host supplies ([path.join], [path.resolve], [JSON.parse],
      [toLowerCase], ...) is gathered in the class [Host]. *)

From Stdlib Require Import ZArith NArith Lia List Ascii String.
From Stdlib Require Import DecimalString DecimalZ Sorted.
From stdpp Require Import gmap list strings.

(** ** JavaScript strings *)

Definition jsstring := list N.

(** An ASCII literal as a JavaScript string. *)
Definition js (s : string) : jsstring :=
  map N_of_ascii (list_ascii_of_string s).

(** [s.startsWith(prefix)] *)
Fixpoint startsWith (pre s : jsstring) : bool :=
  match pre, s with
  | [], _ => true
  | _ :: _, [] => false
  | a :: pre', b :: s' => (a =? b)%N && startsWith pre' s'
  end.

(** The string a template literal gives for an integral number. *)
Definition showZ (z : Z) : jsstring :=
  js (NilEmpty.string_of_int (Z.to_int z)).

(** [Array.prototype.sort(cmp)] is a stable sort; [cmp a b <= 0] keeps
    [a] before [b]. Any stable sort returns the same array, so it is
    modelled by insertion from the right. *)
Section Sort.
Context {A : Type} (cmp : A -> A -> Z).

Fixpoint sort_insert (x : A) (l : list A) : list A :=
  match l with
  | [] => [x]
  | y :: l' => if (cmp x y <=? 0)%Z then x :: y :: l' else y :: sort_insert x l'
  end.

Definition js_sort (l : list A) : list A := foldr sort_insert [] l.
End Sort.

(** The comparison of [sort()] without a comparator: code units,
    lexicographically. *)
Fixpoint compare_strings (a b : jsstring) : Z :=
  match a, b with
  | [], [] => 0
  | [], _ :: _ => -1
  | _ :: _, [] => 1
  | x :: a', y :: b' =>
      if (x <? y)%N then -1 else if (y <? x)%N then 1 else compare_strings a' b'
  end.

(** ** Percent-encoding: [encodeURI] and [decodeURIComponent]

    Both follow the abstract operations Encode and Decode of ECMAScript. *)
Module URI.
Local Open Scope N_scope.

Definition is_alpha (c : N) : bool :=
  ((65 <=? c) && (c <=? 90)) || ((97 <=? c) && (c <=? 122)).
Definition is_digit (c : N) : bool := (48 <=? c) && (c <=? 57).

Definition in_set (c : N) (set : jsstring) : bool :=
  existsb (N.eqb c) set.

(** uriMark *)
Definition uri_mark : jsstring := js "-_.!~*'()".
(** uriReserved and the number sign, which [encodeURI] keeps *)
Definition uri_reserved_hash : jsstring := js ";/?:@&=+$,#".

Definition always_unescaped (c : N) : bool :=
  is_alpha c || is_digit c || in_set c uri_mark.

(** The unescaped set of [encodeURI]. *)
Definition unescaped_encodeURI (c : N) : bool :=
  always_unescaped c || in_set c uri_reserved_hash.

Definition is_lead (c : N) : bool := (0xD800 <=? c) && (c <=? 0xDBFF).
Definition is_trail (c : N) : bool := (0xDC00 <=? c) && (c <=? 0xDFFF).

Definition hexdigit (v : N) : N := if v <? 10 then 48 + v else 55 + v.

Definition hexval (c : N) : option N :=
  if is_digit c then Some (c - 48)
  else if (65 <=? c) && (c <=? 70) then Some (c - 55)
  else if (97 <=? c) && (c <=? 102) then Some (c - 87)
  else None.

(** One octet as [%XX], upper-case digits. *)
Definition pct (b : N) : jsstring := [37; hexdigit (b / 16); hexdigit (b mod 16)].

Definition pct_all (bs : list N) : jsstring := concat (map pct bs).

(** The UTF-8 octets of a code point. *)
Definition utf8_encode (cp : N) : list N :=
  if cp <? 0x80 then [cp]
  else if cp <? 0x800 then [0xC0 + cp / 64; 0x80 + cp mod 64]
  else if cp <? 0x10000 then
    [0xE0 + cp / 4096; 0x80 + (cp / 64) mod 64; 0x80 + cp mod 64]
  else
    [0xF0 + cp / 262144; 0x80 + (cp / 4096) mod 64;
     0x80 + (cp / 64) mod 64; 0x80 + cp mod 64].

(** UTF16SurrogatePairToCodePoint *)
Definition pair_code_point (lead trail : N) : N :=
  (lead - 0xD800) * 0x400 + (trail - 0xDC00) + 0x10000.

(** UTF16EncodeCodePoint *)
Definition utf16_encode (cp : N) : jsstring :=
  if cp <? 0x10000 then [cp]
  else [0xD800 + (cp - 0x10000) / 0x400; 0xDC00 + (cp - 0x10000) mod 0x400].

(** Encode: a code unit of the unescaped set is kept, any other code
    point is written as the escapes of its UTF-8 octets; an unpaired
    surrogate throws URIError. *)
Fixpoint encode (unescaped : N -> bool) (s : jsstring) : option jsstring :=
  match s with
  | [] => Some []
  | c :: rest =>
      if unescaped c then cons c <$> encode unescaped rest
      else if is_lead c then
        match rest with
        | d :: rest' =>
            if is_trail d then
              app (pct_all (utf8_encode (pair_code_point c d)))
                <$> encode unescaped rest'
            else None
        | [] => None
        end
      else if is_trail c then None
      else app (pct_all (utf8_encode c)) <$> encode unescaped rest
  end.

Definition encodeURI (s : jsstring) : option jsstring :=
  encode unescaped_encodeURI s.

(** ParseHexOctet at a position that must hold [%XX]. *)
Definition take_octet (s : jsstring) : option (N * jsstring) :=
  match s with
  | p :: h :: l :: rest =>
      if p =? 37 then
        match hexval h, hexval l with
        | Some a, Some b => Some (16 * a + b, rest)
        | _, _ => None
        end
      else None
  | _ => None
  end.

(** The [n] continuation escapes that follow a leading octet. *)
Fixpoint take_continuation (n : nat) (s : jsstring) : option (list N * jsstring) :=
  match n with
  | O => Some ([], s)
  | S n' =>
      match take_octet s with
      | Some (b, r) =>
          match take_continuation n' r with
          | Some (bs, r') => Some (b :: bs, r')
          | None => None
          end
      | None => None
      end
  end.

(** Number of leading 1 bits of an octet. *)
Definition leading_ones (b : N) : nat :=
  if b <? 0x80 then 0
  else if b <? 0xC0 then 1
  else if b <? 0xE0 then 2
  else if b <? 0xF0 then 3
  else if b <? 0xF8 then 4
  else 5.

Definition is_continuation (b : N) : bool := (0x80 <=? b) && (b <=? 0xBF).

(** The code point of a well-formed UTF-8 sequence: shortest form, no
    surrogate, at most U+10FFFF. *)
Definition utf8_decode (bs : list N) : option N :=
  match bs with
  | [b0; b1] =>
      let cp := (b0 - 0xC0) * 64 + (b1 - 0x80) in
      if is_continuation b1 && (0x80 <=? cp) then Some cp else None
  | [b0; b1; b2] =>
      let cp := (b0 - 0xE0) * 4096 + (b1 - 0x80) * 64 + (b2 - 0x80) in
      if is_continuation b1 && is_continuation b2 && (0x800 <=? cp)
         && negb ((0xD800 <=? cp) && (cp <=? 0xDFFF))
      then Some cp else None
  | [b0; b1; b2; b3] =>
      let cp := (b0 - 0xF0) * 262144 + (b1 - 0x80) * 4096
                + (b2 - 0x80) * 64 + (b3 - 0x80) in
      if is_continuation b1 && is_continuation b2 && is_continuation b3
         && (0x10000 <=? cp) && (cp <=? 0x10FFFF)
      then Some cp else None
  | _ => None
  end.

(** Decode with an empty preserved set. Each round consumes at least one
    code unit, so [length s] rounds are enough. *)
Fixpoint decode (fuel : nat) (s : jsstring) : option jsstring :=
  match s with
  | [] => Some []
  | c :: rest =>
      match fuel with
      | O => None
      | S fuel' =>
          if c =? 37 then
            match take_octet s with
            | None => None
            | Some (b, r) =>
                match leading_ones b with
                | O => cons b <$> decode fuel' r
                | 1%nat => None
                | S n =>
                    if (3 <? n)%nat then None
                    else
                      match take_continuation n r with
                      | None => None
                      | Some (bs, r') =>
                          match utf8_decode (b :: bs) with
                          | None => None
                          | Some cp => app (utf16_encode cp) <$> decode fuel' r'
                          end
                      end
                end
            end
          else cons c <$> decode fuel' rest
      end
  end.

Definition decodeURIComponent (s : jsstring) : option jsstring :=
  decode (length s) s.

(** A Unicode scalar value. *)
Definition scalar (cp : N) : Prop :=
  cp < 0x110000 /\ ~ (0xD800 <= cp <= 0xDFFF).

(** A string [encodeURI] accepts: 16-bit code units, surrogates in pairs. *)
Fixpoint well_formed (s : jsstring) : bool :=
  match s with
  | [] => true
  | c :: rest =>
      if negb (c <? 0x10000) then false
      else if is_lead c then
        match rest with
        | d :: rest' => is_trail d && well_formed rest'
        | [] => false
        end
      else negb (is_trail c) && well_formed rest
  end.
End URI.

(** ** [uriToPath] and [pathToUri] *)

Definition file_scheme : jsstring := js "file://".

Definition uriToPath (uri : jsstring) : option jsstring :=
  if startsWith file_scheme uri then
    let path := drop 7 uri in
    URI.decodeURIComponent path
  else Some uri.

Definition pathToUri (filePath : jsstring) : option jsstring :=
  if negb (startsWith file_scheme filePath) then
    app file_scheme <$> URI.encodeURI filePath
  else Some filePath.

(** Reserved characters other than the path separator. *)
Definition reserved_beyond_separator : jsstring := js ";?:@&=+$,#".

(** A path of safe characters: well-formed text (letters, digits, marks,
    separators, spaces, any Unicode) without a reserved character. *)
Definition safe_path (p : jsstring) : bool :=
  URI.well_formed p
  && forallb (fun c => negb (URI.in_set c reserved_beyond_separator)) p.

(** ** What the host supplies *)

(** The metadata descriptor after [JSON.parse], at its declared type
    [{ resource?: string }]. *)
Record EntriesJson := { resource : option jsstring }.

Class Host := {
  (** [path.join(a, b)] *)
  path_join : jsstring -> jsstring -> jsstring;
  (** [path.dirname(p)] *)
  path_dirname : jsstring -> jsstring;
  (** the name under which the directory [path_dirname p] lists [p] *)
  path_basename : jsstring -> jsstring;
  (** [path.resolve(p)] *)
  path_resolve : jsstring -> jsstring;
  (** [s.toLowerCase()] *)
  toLowerCase : jsstring -> jsstring;
  (** [JSON.parse(text)]: [None] is a SyntaxError, [Some None] the value
      [null] *)
  JSON_parse : jsstring -> option (option EntriesJson);
  (** [new Date(t).toLocaleString()] *)
  toLocaleString : Z -> jsstring;
  (** Canonicalize of a regular expression with the [i] flag *)
  canonicalize : N -> N
}.

(** ** The file system *)

Record dirent := { d_name : jsstring; d_isDirectory : bool }.

(** A regular file or a directory. [readable] on a directory is the right
    to list it, [writable] the right to add an entry. A name that a
    directory lists and that has no node is a link to nowhere. *)
Inductive node :=
| File (mtime : Z) (data : jsstring) (readable writable : bool)
| Dir (mtime : Z) (children : list dirent) (readable writable : bool).

Abbreviation fsys := (gmap jsstring node).

Definition existsSync (fs : fsys) (p : jsstring) : bool :=
  match fs !! p with Some _ => true | None => false end.

(** [fs.readdirSync(p, { withFileTypes: true })] *)
Definition readdirSync (fs : fsys) (p : jsstring) : option (list dirent) :=
  match fs !! p with
  | Some (Dir _ children true _) => Some children
  | _ => None
  end.

(** [fs.statSync(p).mtime.getTime()] *)
Definition statSync (fs : fsys) (p : jsstring) : option Z :=
  match fs !! p with
  | Some (File m _ _ _) | Some (Dir m _ _ _) => Some m
  | None => None
  end.

(** [fs.readFileSync(p, 'utf-8')] *)
Definition readFileSync (fs : fsys) (p : jsstring) : option jsstring :=
  match fs !! p with
  | Some (File _ data true _) => Some data
  | _ => None
  end.

(** The regular file at a path, if there is one. *)
Definition regular (fs : fsys) (p : jsstring) : option node :=
  match fs !! p with
  | Some (File m data r w) => Some (File m data r w)
  | _ => None
  end.

Definition is_directory (n : node) : bool :=
  match n with Dir _ _ _ _ => true | File _ _ _ _ => false end.

Definition add_child (name : jsstring) (isdir : bool) (children : list dirent)
  : list dirent :=
  if existsb (fun d => bool_decide (d_name d = name)) children then children
  else children ++ [{| d_name := name; d_isDirectory := isdir |}].

Section FileSystemWrites.
Context `{Host}.

(** A new node at [p]: the parent must be a directory that takes
    entries. *)
Definition create (fs : fsys) (p : jsstring) (n : node) : option fsys :=
  match fs !! path_dirname p with
  | Some (Dir m children r true) =>
      Some (<[p := n]>
              (<[path_dirname p :=
                   Dir m (add_child (path_basename p) (is_directory n) children) r true]>
                 fs))
  | _ => None
  end.

(** [fs.writeFileSync(p, data, 'utf-8')] at clock reading [now] *)
Definition writeFileSync (now : Z) (fs : fsys) (p data : jsstring) : option fsys :=
  match fs !! p with
  | Some (File _ _ r true) => Some (<[p := File now data r true]> fs)
  | Some _ => None
  | None => create fs p (File now data true true)
  end.

(** [fs.copyFileSync(src, dest)] *)
Definition copyFileSync (now : Z) (fs : fsys) (src dest : jsstring) : option fsys :=
  match readFileSync fs src with
  | Some data => writeFileSync now fs dest data
  | None => None
  end.

(** [fs.mkdirSync(d, { recursive: true })]: the missing ancestors first,
    then [d]. A path has fewer ancestors than code units. *)
Fixpoint mkdirp (fuel : nat) (now : Z) (fs : fsys) (d : jsstring) : option fsys :=
  match fs !! d with
  | Some (Dir _ _ _ _) => Some fs
  | Some (File _ _ _ _) => None
  | None =>
      match fuel with
      | O => None
      | S fuel' =>
          match mkdirp fuel' now fs (path_dirname d) with
          | Some fs1 => create fs1 d (Dir now [] true true)
          | None => None
          end
      end
  end.

Definition mkdirSync (now : Z) (fs : fsys) (d : jsstring) : option fsys :=
  mkdirp (S (length d)) now fs d.
End FileSystemWrites.

(** ** [history-parser.ts] *)

Record HistoryEntry := {
  timestamp : Z;
  content : jsstring;
  filePath : jsstring;
  relativePath : jsstring
}.

Record FileHistory := {
  originalFilePath : jsstring;
  entries : list HistoryEntry
}.

Record VSCodeHistoryParser := { historyDir : jsstring }.

Record HistoryStats := {
  totalFiles : nat;
  totalEntries : nat;
  historyDirExists : bool;
  historyDirPath : jsstring
}.

(** What a call gives: a value, or a thrown error. *)
Inductive outcome (A : Type) :=
| Returns (a : A)
| Throws.
Arguments Returns {A} a.
Arguments Throws {A}.

Definition entries_json : jsstring := js "entries.json".

(** [(a, b) => b.timestamp - a.timestamp] *)
Definition most_recent_first (a b : HistoryEntry) : Z := timestamp b - timestamp a.

Section Parser.
Context `{Host}.
Variable this : VSCodeHistoryParser.

Definition historyDirectoryExists (fs : fsys) : bool :=
  existsSync fs (historyDir this).

Definition getHistoryDirectories (fs : fsys) : list jsstring :=
  if negb (historyDirectoryExists fs) then []
  else
    match readdirSync fs (historyDir this) with
    | Some dirents => map d_name (filter (fun dirent => d_isDirectory dirent = true) dirents)
    | None => []
    end.

Definition parseEntriesJson (fs : fsys) (historyDirPath : jsstring)
  : option EntriesJson :=
  let entriesJsonPath := path_join historyDirPath entries_json in
  if negb (existsSync fs entriesJsonPath) then None
  else
    match readFileSync fs entriesJsonPath with
    | Some content =>
        match JSON_parse content with
        | Some value => value
        | None => None
        end
    | None => None
    end.

(** The loop over [historyFiles]: [statSync] is outside the inner [try],
    so its failure leaves the loop ([None]); a failure of [readFileSync]
    is caught and the file is skipped. *)
Fixpoint read_entries (fs : fsys) (historyDirPath : jsstring)
  (historyFiles : list jsstring) : option (list HistoryEntry) :=
  match historyFiles with
  | [] => Some []
  | file :: rest =>
      let filePath := path_join historyDirPath file in
      match statSync fs filePath with
      | None => None
      | Some mtime =>
          match readFileSync fs filePath with
          | Some content =>
              cons {| timestamp := mtime; content := content;
                      filePath := filePath; relativePath := file |}
                <$> read_entries fs historyDirPath rest
          | None => read_entries fs historyDirPath rest
          end
      end
  end.

Definition getFileHistory (fs : fsys) (hashDir : jsstring) : option FileHistory :=
  let historyDirPath := path_join (historyDir this) hashDir in
  if negb (existsSync fs historyDirPath) then None
  else
    match parseEntriesJson fs historyDirPath with
    | None => None
    | Some entriesJson =>
        match resource entriesJson with
        | None | Some [] => None
        | Some originalFilePath =>
            match readdirSync fs historyDirPath with
            | None => None
            | Some dirents =>
                let historyFiles :=
                  js_sort compare_strings
                    (filter (fun file => file <> entries_json) (map d_name dirents)) in
                match read_entries fs historyDirPath historyFiles with
                | None => None
                | Some entries =>
                    Some {| originalFilePath := originalFilePath;
                            entries := js_sort most_recent_first entries |}
                end
            end
        end
    end.

Definition getAllFileHistories (fs : fsys) : list FileHistory :=
  omap (getFileHistory fs) (getHistoryDirectories fs).

(** The loop of [findHistoryByFilePath]. *)
Fixpoint find_history (normalizedTarget : jsstring) (histories : list FileHistory)
  : outcome (option FileHistory) :=
  match histories with
  | [] => Returns None
  | history :: rest =>
      match uriToPath (originalFilePath history) with
      | None => Throws
      | Some cleanHistoryPath =>
          let normalizedHistory := path_resolve cleanHistoryPath in
          if decide (normalizedTarget = normalizedHistory) then Returns (Some history)
          else if decide (toLowerCase normalizedTarget = toLowerCase normalizedHistory)
               then Returns (Some history)
               else find_history normalizedTarget rest
      end
  end.

Definition findHistoryByFilePath (fs : fsys) (targetFilePath : jsstring)
  : outcome (option FileHistory) :=
  let histories := getAllFileHistories fs in
  match uriToPath targetFilePath with
  | None => Throws
  | Some cleanTargetPath =>
      let normalizedTarget := path_resolve cleanTargetPath in
      find_history normalizedTarget histories
  end.

Definition getHistoryStats (fs : fsys) : HistoryStats :=
  let histories := getAllFileHistories fs in
  let totalEntries :=
    fold_left (fun sum history => sum + length (entries history))%nat histories 0%nat in
  {| totalFiles := length histories;
     totalEntries := totalEntries;
     historyDirExists := historyDirectoryExists fs;
     historyDirPath := historyDir this |}.
End Parser.

(** ** Regular expressions of literal characters

    [new RegExp(source, flags)] is modelled on the patterns whose atoms are
    all literal: a pattern character, or the identity escape of a syntax
    character. *)
Module RegExp.
Local Open Scope N_scope.

Definition backslash : N := 92.

(** SyntaxCharacter: one of [^ $ \ . * + ? ( ) [ ] { } |]. *)
Definition syntax_characters : jsstring := js "^$.*+?()[]{}|" ++ [backslash].

Definition is_syntax_character (c : N) : bool := URI.in_set c syntax_characters.

Inductive atom :=
| Literal (c : N)   (** matches the character [c] *)
| Operator (c : N)  (** a syntax character that is not escaped *)
| OtherEscape (c : N). (** a backslash before any other character *)

(** The atoms of a pattern; a backslash that ends it is a SyntaxError. *)
Fixpoint atoms (source : jsstring) : option (list atom) :=
  match source with
  | [] => Some []
  | c :: rest =>
      if c =? backslash then
        match rest with
        | [] => None
        | d :: rest' =>
            cons (if is_syntax_character d then Literal d else OtherEscape d)
              <$> atoms rest'
        end
      else
        cons (if is_syntax_character c then Operator c else Literal c)
          <$> atoms rest
  end.

Fixpoint literals (l : list atom) : option jsstring :=
  match l with
  | [] => Some []
  | Literal c :: l' => cons c <$> literals l'
  | _ => None
  end.

Record regexp := { pattern : jsstring; ignoreCase : bool }.

(** [new RegExp(source, ignoreCase ? 'gi' : 'g')] for a source within
    the model. *)
Definition make (source : jsstring) (ignoreCase : bool) : option regexp :=
  match atoms source with
  | Some l =>
      match literals l with
      | Some p => Some {| pattern := p; ignoreCase := ignoreCase |}
      | None => None
      end
  | None => None
  end.

Section Matching.
Context `{Host}.

Definition same_character (ignoreCase : bool) (a b : N) : bool :=
  if ignoreCase then canonicalize a =? canonicalize b else a =? b.

(** The pattern matches at the start of [s]. *)
Fixpoint matches_here (ignoreCase : bool) (p s : jsstring) : bool :=
  match p, s with
  | [], _ => true
  | _ :: _, [] => false
  | a :: p', b :: s' => same_character ignoreCase a b && matches_here ignoreCase p' s'
  end.

(** The matches a global regular expression finds from the start of
    [s], left to right. After a match the search goes on where it
    ended ([skip] code units further), one unit further after an empty
    match. *)
Fixpoint match_global (r : regexp) (skip : nat) (s : jsstring) : list jsstring :=
  match s with
  | [] =>
      match skip with
      | O => if matches_here (ignoreCase r) (pattern r) [] then [[]] else []
      | S _ => []
      end
  | _ :: rest =>
      match skip with
      | S k => match_global r k rest
      | O =>
          if matches_here (ignoreCase r) (pattern r) s
          then take (length (pattern r)) s
                 :: match_global r (Nat.pred (length (pattern r))) rest
          else match_global r 0 rest
      end
  end.

(** [s.match(r)] for a global [r]: the matches, or [null]. *)
Definition string_match (s : jsstring) (r : regexp) : option (list jsstring) :=
  match match_global r 0 s with
  | [] => None
  | matches => Some matches
  end.
End Matching.
End RegExp.

(** ** [index.ts] *)

Record SearchResult := {
  file : jsstring;
  entryIndex : nat;
  timestamp_text : jsstring;
  matchCount : nat
}.

(** The text results of the tool handlers, one constructor for each
    [return]. *)
Inductive response :=
| NoHistoryFound (filePath : jsstring)
| InvalidEntryIndex (entryIndex : Z) (lastIndex : Z)
| RestoredWithBackup (targetPath : jsstring) (entryIndex : Z)
    (backupPath : jsstring) (timestamp : Z)
| RestoredWithoutBackup (targetPath : jsstring) (entryIndex : Z) (timestamp : Z)
| RestoreFailed
| NoMatchesFound (searchTerm : jsstring)
| MatchesFound (searchTerm : jsstring) (results : list SearchResult).

Definition newline : jsstring := [10%N].
Definition check_mark : jsstring := [0x2705%N].
Definition page_icon : jsstring := [0xD83D; 0xDCC4]%N.
Definition clock_icon : jsstring := [0xD83D; 0xDD50]%N.
Definition warning_sign : jsstring := [0x26A0; 0xFE0F]%N.
Definition cross_mark : jsstring := [0x274C%N].
Definition magnifier : jsstring := [0xD83D; 0xDD0D]%N.
Definition tree_branch : jsstring := [0x2514; 0x2500; 0x2500]%N.
Definition double_quote : jsstring := [34%N].

Definition backup_marker : jsstring := js ".backup.".

(** [`${targetPath}.backup.${Date.now()}`] *)
Definition backup_path (targetPath : jsstring) (now : Z) : jsstring :=
  targetPath ++ backup_marker ++ showZ now.

(** The part of [s] the pattern [[.*+?^${}()|[\]\\]] selects. *)
Definition regexp_special : jsstring := js ".*+?^${}()|[]" ++ [RegExp.backslash].

(** [searchTerm.replace(/[.*+?^${}()|[\]\\]/g, '\\$&')] *)
Definition escape_term (searchTerm : jsstring) : jsstring :=
  flat_map (fun c => if URI.in_set c regexp_special then [RegExp.backslash; c] else [c])
    searchTerm.

Section Server.
Context `{Host}.
Variable historyParser : VSCodeHistoryParser.

Definition result_line (r : SearchResult) : jsstring :=
  page_icon ++ js " " ++ file r ++ newline
  ++ js "   " ++ tree_branch ++ js " Entry " ++ showZ (Z.of_nat (entryIndex r))
  ++ js " (" ++ timestamp_text r ++ js ")" ++ newline
  ++ js "   " ++ tree_branch ++ js " " ++ showZ (Z.of_nat (matchCount r))
  ++ js " match" ++ (if decide (matchCount r = 1%nat) then [] else js "es").

Fixpoint join_lines (sep : jsstring) (l : list jsstring) : jsstring :=
  match l with
  | [] => []
  | [x] => x
  | x :: l' => x ++ sep ++ join_lines sep l'
  end.

(** The [text] of a result. The message of the error caught by
    [restoreFromHistory] is not part of the model; [RestoreFailed] shows
    the text that precedes it. *)
Definition text_of (r : response) : jsstring :=
  match r with
  | NoHistoryFound filePath => js "No local history found for: " ++ filePath
  | InvalidEntryIndex entryIndex lastIndex =>
      js "Invalid entry index " ++ showZ entryIndex
      ++ js ". Available indices: 0-" ++ showZ lastIndex
  | RestoredWithBackup targetPath entryIndex backupPath t =>
      check_mark ++ js " Successfully restored " ++ targetPath
      ++ js " to history entry " ++ showZ entryIndex ++ newline
      ++ page_icon ++ js " Backup created at: " ++ backupPath ++ newline
      ++ clock_icon ++ js " Restored to state from: " ++ toLocaleString t
  | RestoredWithoutBackup targetPath entryIndex t =>
      check_mark ++ js " Successfully restored " ++ targetPath
      ++ js " to history entry " ++ showZ entryIndex ++ newline
      ++ clock_icon ++ js " Restored to state from: " ++ toLocaleString t ++ newline
      ++ warning_sign ++ js "  No backup was created"
  | RestoreFailed => cross_mark ++ js " Failed to restore file: "
  | NoMatchesFound searchTerm =>
      js "No matches found for " ++ double_quote ++ searchTerm ++ double_quote
      ++ js " in local history."
  | MatchesFound searchTerm results =>
      magnifier ++ js " Found " ++ showZ (Z.of_nat (length results))
      ++ js " entries containing " ++ double_quote ++ searchTerm ++ double_quote
      ++ js ":" ++ newline ++ newline
      ++ join_lines (newline ++ newline) (map result_line results)
  end.

(** The [try] block of [restoreFromHistory]; a file-system call that
    throws ends it with the state reached so far. *)
Definition restore_target (now : Z) (fs : fsys) (targetPath : jsstring)
  (entry : HistoryEntry) (entryIndex : Z) (createBackup : bool) : response * fsys :=
  let dir := path_dirname targetPath in
  match (if negb (existsSync fs dir) then mkdirSync now fs dir else Some fs) with
  | None => (RestoreFailed, fs)
  | Some fs1 =>
      if createBackup && existsSync fs1 targetPath then
        let backupPath := backup_path targetPath now in
        match copyFileSync now fs1 targetPath backupPath with
        | None => (RestoreFailed, fs1)
        | Some fs2 =>
            match writeFileSync now fs2 targetPath (content entry) with
            | None => (RestoreFailed, fs2)
            | Some fs3 =>
                (RestoredWithBackup targetPath entryIndex backupPath (timestamp entry),
                 fs3)
            end
        end
      else
        match writeFileSync now fs1 targetPath (content entry) with
        | None => (RestoreFailed, fs1)
        | Some fs2 =>
            (RestoredWithoutBackup targetPath entryIndex (timestamp entry), fs2)
        end
  end.

(** [restoreFromHistory(filePath, entryIndex, createBackup)] on the file
    system [fs], [now] being what [Date.now()] reads, for an [entryIndex]
    that is an integer: within the range such an index has an entry, and
    the arm for an entry that is [undefined] is not reached. *)
Definition restoreFromHistory (now : Z) (fs : fsys) (filePath : jsstring)
  (entryIndex : Z) (createBackup : bool) : outcome (response * fsys) :=
  match findHistoryByFilePath historyParser fs filePath with
  | Throws => Throws
  | Returns None => Returns (NoHistoryFound filePath, fs)
  | Returns (Some history) =>
      if (entryIndex <? 0)%Z || (entryIndex >=? Z.of_nat (length (entries history)))%Z
      then Returns (InvalidEntryIndex entryIndex
                      (Z.of_nat (length (entries history)) - 1), fs)
      else
        match entries history !! Z.to_nat entryIndex with
        | None => Throws
        | Some entry =>
            match uriToPath (originalFilePath history), uriToPath filePath with
            | Some originalPath, Some inputPath =>
                let targetPath :=
                  if existsSync fs inputPath then inputPath else originalPath in
                Returns (restore_target now fs targetPath entry entryIndex createBackup)
            | _, _ => Throws
            end
        end
  end.

(** The records [searchHistoryContent] pushes for one history. *)
Definition search_entries (searchRegex : RegExp.regexp) (history : FileHistory)
  : list SearchResult :=
  omap id
    (imap (fun index entry =>
             match RegExp.string_match (content entry) searchRegex with
             | Some matches =>
                 Some {| file := originalFilePath history;
                         entryIndex := index;
                         timestamp_text := toLocaleString (timestamp entry);
                         matchCount := length matches |}
             | None => None
             end)
       (entries history)).

(** The array [results] when the loops end; [None] stands for a regular
    expression outside the model (there is none, see
    [make_escape_term]). *)
Definition search_results (fs : fsys) (searchTerm : jsstring) (caseSensitive : bool)
  : option (list SearchResult) :=
  let histories := getAllFileHistories historyParser fs in
  match RegExp.make (escape_term searchTerm) (negb caseSensitive) with
  | None => None
  | Some searchRegex => Some (flat_map (search_entries searchRegex) histories)
  end.

Definition searchHistoryContent (fs : fsys) (searchTerm : jsstring)
  (caseSensitive : bool) : option response :=
  match search_results fs searchTerm caseSensitive with
  | None => None
  | Some [] => Some (NoMatchesFound searchTerm)
  | Some results => Some (MatchesFound searchTerm results)
  end.
End Server.

(** ** A host for the examples

    POSIX paths in normal form and ASCII text: on these the functions
    below agree with Node's [path] module and with the string methods. *)
Module Posix.
Local Open Scope N_scope.

Definition slash : N := 47.

Definition join (a b : jsstring) : jsstring := a ++ [slash] ++ b.

Fixpoint until_slash (s : jsstring) : jsstring :=
  match s with
  | [] => []
  | c :: rest => if c =? slash then [] else c :: until_slash rest
  end.

Definition basename (p : jsstring) : jsstring :=
  reverse (until_slash (reverse p)).

Definition dirname (p : jsstring) : jsstring :=
  match drop (S (length (basename p))) (reverse p) with
  | [] => if startsWith [slash] p then [slash] else js "."
  | d => reverse d
  end.

Definition lower (c : N) : N := if (65 <=? c) && (c <=? 90) then c + 32 else c.
Definition upper (c : N) : N := if (97 <=? c) && (c <=? 122) then c - 32 else c.

Definition quote : N := 34.

(** [{"resource":"] and ["}] *)
Definition resource_open : jsstring := [123; quote] ++ js "resource" ++ [quote; 58; quote].
Definition resource_close : jsstring := [quote; 125].

(** The JSON texts of the examples: [null], [{}] and
    [{"resource":"..."}] without escapes; nothing else is accepted. *)
Definition parse (text : jsstring) : option (option EntriesJson) :=
  if decide (text = js "null") then Some None
  else if decide (text = js "{}") then Some (Some {| resource := None |})
  else if startsWith resource_open text then
    let body := drop (length resource_open) text in
    let n := (length body - 2)%nat in
    if bool_decide (drop n body = resource_close)
       && forallb (fun c => negb ((c =? quote) || (c =? RegExp.backslash))) (take n body)
    then Some (Some {| resource := Some (take n body) |})
    else None
  else None.

#[global] Instance host : Host := {|
  path_join := join;
  path_dirname := dirname;
  path_basename := basename;
  path_resolve := fun p => p;
  toLowerCase := map lower;
  JSON_parse := parse;
  toLocaleString := showZ;
  canonicalize := upper
|}.

Definition metadata (originalFilePath : jsstring) : jsstring :=
  resource_open ++ originalFilePath ++ resource_close.

Definition plain (mtime : Z) (data : jsstring) : node := File mtime data true true.
Definition folder (names : list (jsstring * bool)) : node :=
  Dir 0 (map (fun '(n, d) => {| d_name := n; d_isDirectory := d |}) names) true true.

Definition parser : VSCodeHistoryParser := {| historyDir := js "/h" |}.

(** Three tracked files, two of them with names that differ by case
    only; [/a/b.txt] is on disk, [/A] is not. *)
Definition store : fsys :=
  list_to_map
    [ (js "/", folder [(js "h", true); (js "a", true)]);
      (js "/a", folder [(js "b.txt", false)]);
      (js "/a/b.txt", plain 50 (js "current"));
      (js "/h", folder [(js "d0", true); (js "d1", true); (js "d2", true)]);
      (js "/h/d0", folder [(js "entries.json", false); (js "n1", false)]);
      (js "/h/d0/entries.json", plain 10 (metadata (js "/x/notes.md")));
      (js "/h/d0/n1", plain 70 (js "todo"));
      (js "/h/d1", folder [(js "entries.json", false); (js "x1", false); (js "x2", false)]);
      (js "/h/d1/entries.json", plain 10 (metadata (js "/A/b.txt")));
      (js "/h/d1/x1", plain 100 (js "first draft"));
      (js "/h/d1/x2", plain 200 (js "second draft"));
      (js "/h/d2", folder [(js "entries.json", false); (js "y1", false); (js "y2", false)]);
      (js "/h/d2/entries.json", plain 10 (metadata (js "/a/b.txt")));
      (js "/h/d2/y1", plain 300 (js "let foo = Foo.FOO"));
      (js "/h/d2/y2", plain 400 (js "a.b a+b axb")) ].

Definition snapshot (dir name : jsstring) (mtime : Z) (data : jsstring) : HistoryEntry :=
  {| timestamp := mtime; content := data;
     filePath := js "/h/" ++ dir ++ js "/" ++ name; relativePath := name |}.

Definition notes_history : FileHistory :=
  {| originalFilePath := js "/x/notes.md";
     entries := [snapshot (js "d0") (js "n1") 70 (js "todo")] |}.

Definition upper_history : FileHistory :=
  {| originalFilePath := js "/A/b.txt";
     entries := [snapshot (js "d1") (js "x2") 200 (js "second draft");
                 snapshot (js "d1") (js "x1") 100 (js "first draft")] |}.

Definition lower_history : FileHistory :=
  {| originalFilePath := js "/a/b.txt";
     entries := [snapshot (js "d2") (js "y2") 400 (js "a.b a+b axb");
                 snapshot (js "d2") (js "y1") 300 (js "let foo = Foo.FOO")] |}.

Definition single_history : FileHistory :=
  {| originalFilePath := js "/A/b.txt";
     entries := [snapshot (js "d1") (js "x1") 100 (js "first draft")] |}.

Definition state_after (o : outcome (response * fsys)) (fs : fsys) : fsys :=
  match o with
  | Returns (_, fs') => fs'
  | Throws => fs
  end.

Definition response_of (o : outcome (response * fsys)) : option response :=
  match o with
  | Returns (r, _) => Some r
  | Throws => None
  end.

(** [/A/b.txt], which is not on disk, restored. *)
Definition store_restored_missing : fsys :=
  state_after (restoreFromHistory parser 1000 store (js "/A/b.txt") 0 true) store.

(** [/a/b.txt] restored twice within the millisecond 1000. *)
Definition store_restored_once : fsys :=
  state_after (restoreFromHistory parser 1000 store (js "/a/b.txt") 0 true) store.

Definition store_restored_twice : fsys :=
  state_after (restoreFromHistory parser 1000 store_restored_once (js "/a/b.txt") 1 true)
    store_restored_once.

(** A snapshot directory that lists [gone], a link to nowhere, next to a
    readable snapshot. *)
Definition store_dangling : fsys :=
  list_to_map
    [ (js "/h", folder [(js "d1", true)]);
      (js "/h/d1", folder [(js "entries.json", false); (js "gone", false); (js "x1", false)]);
      (js "/h/d1/entries.json", plain 10 (metadata (js "/a/b.txt")));
      (js "/h/d1/x1", plain 100 (js "first draft")) ].



(** The target's directory does not take new entries. *)
Definition store_read_only : fsys :=
  list_to_map
    [ (js "/", folder [(js "h", true); (js "A", true)]);
      (js "/A", Dir 0 [] true false);
      (js "/h", folder [(js "d1", true)]);
      (js "/h/d1", folder [(js "entries.json", false); (js "x1", false)]);
      (js "/h/d1/entries.json", plain 10 (metadata (js "/A/b.txt")));
      (js "/h/d1/x1", plain 100 (js "first draft")) ].
End Posix.

(** ** Properties the theorems are stated with *)


Definition can_read (fs : fsys) (p : jsstring) : bool :=
  match readFileSync fs p with Some _ => true | None => false end.

(** The text of the regular file at a path. *)
Definition file_data (fs : fsys) (p : jsstring) : option jsstring :=
  match fs !! p with
  | Some (File _ data _ _) => Some data
  | _ => None
  end.

(** Most recent first. *)
Definition newer_first (a b : HistoryEntry) : Prop := (timestamp b <= timestamp a)%Z.

Section Statements.
Context `{Host}.
Variable this : VSCodeHistoryParser.

(** The snapshot names [getFileHistory] iterates over. *)
Definition snapshot_names (dirents : list dirent) : list jsstring :=
  filter (fun file => file <> entries_json) (map d_name dirents).

(** The normalized original path of [h] equals the normalized target,
    exactly or up to case. *)
Definition exact_match (t : jsstring) (h : FileHistory) : Prop :=
  exists p, uriToPath (originalFilePath h) = Some p /\ path_resolve p = path_resolve t.

Definition caseless_match (t : jsstring) (h : FileHistory) : Prop :=
  exists p, uriToPath (originalFilePath h) = Some p
            /\ toLowerCase (path_resolve p) = toLowerCase (path_resolve t).

(** [h] can be compared and matches in neither way. *)
Definition no_match (t : jsstring) (h : FileHistory) : Prop :=
  exists p, uriToPath (originalFilePath h) = Some p
            /\ toLowerCase (path_resolve p) <> toLowerCase (path_resolve t).

(** The reading of the lookup under which an exact match anywhere in the
    store wins over a case-insensitive match. *)
Definition exact_match_wins (fs : fsys) (targetFilePath : jsstring) : Prop :=
  forall t h,
    uriToPath targetFilePath = Some t ->
    h ∈ getAllFileHistories this fs -> exact_match t h ->
    exists h', findHistoryByFilePath this fs targetFilePath = Returns (Some h')
               /\ exact_match t h'.



(** The reading of the restore under which a target that is not on disk
    is always written. *)
Definition missing_target_is_written (now : Z) (fs : fsys) (filePath : jsstring)
  (index : Z) : Prop :=
  forall history entry originalPath inputPath,
    findHistoryByFilePath this fs filePath = Returns (Some history) ->
    (0 <= index)%Z -> entries history !! Z.to_nat index = Some entry ->
    uriToPath (originalFilePath history) = Some originalPath ->
    uriToPath filePath = Some inputPath ->
    let targetPath := if existsSync fs inputPath then inputPath else originalPath in
    existsSync fs targetPath = false ->
    exists fs',
      restoreFromHistory this now fs filePath index true
        = Returns (RestoredWithoutBackup targetPath index (timestamp entry), fs')
      /\ file_data fs' targetPath = Some (content entry).

(** [text] contains [term]: as it is, or up to the case folding of the
    regular expression. *)
Definition contains (caseSensitive : bool) (term text : jsstring) : Prop :=
  if caseSensitive then exists pre post, text = pre ++ term ++ post
  else exists pre mid post,
      text = pre ++ mid ++ post
      /\ Forall2 (fun a b => canonicalize a = canonicalize b) term mid.

(** The number of matches of the literal [term] in [text]. *)
Definition occurrences (caseSensitive : bool) (term text : jsstring) : nat :=
  length (RegExp.match_global
            {| RegExp.pattern := term; RegExp.ignoreCase := negb caseSensitive |}
            0 text).
End Statements.

(** ** The store locator: [getHistoryDirectory] *)

(** What the constructor reads of the process: [process.platform],
    [os.homedir()] and [process.env.APPDATA]. *)
Record process := {
  platform : jsstring;
  homedir : jsstring;
  APPDATA : option jsstring
}.

Section StoreLocator.
(** [path.join(base, ...segments)], one call *)
Variable path_join_segments : jsstring -> list jsstring -> jsstring.
Variable proc : process.

(** [process.env.APPDATA || path.join(homeDir, 'AppData', 'Roaming')] *)
Definition appdata_directory : jsstring :=
  match APPDATA proc with
  | Some (c :: rest) => c :: rest
  | _ => path_join_segments (homedir proc) [js "AppData"; js "Roaming"]
  end.

(** [cursorPath] and [vsCodePath] of the [switch]; [None] is its
    [default] branch. *)
Definition history_candidates : option (jsstring * jsstring) :=
  if decide (platform proc = js "win32") then
    Some (path_join_segments appdata_directory [js "Cursor"; js "User"; js "History"],
          path_join_segments appdata_directory [js "Code"; js "User"; js "History"])
  else if decide (platform proc = js "darwin") then
    Some (path_join_segments (homedir proc)
            [js "Library"; js "Application Support"; js "Cursor"; js "User"; js "History"],
          path_join_segments (homedir proc)
            [js "Library"; js "Application Support"; js "Code"; js "User"; js "History"])
  else if decide (platform proc = js "linux") then
    Some (path_join_segments (homedir proc)
            [js ".config"; js "Cursor"; js "User"; js "History"],
          path_join_segments (homedir proc)
            [js ".config"; js "Code"; js "User"; js "History"])
  else None.

Definition getHistoryDirectory (fs : fsys) : outcome jsstring :=
  match history_candidates with
  | None => Throws
  | Some (cursorPath, vsCodePath) =>
      if existsSync fs cursorPath then Returns cursorPath
      else if existsSync fs vsCodePath then Returns vsCodePath
      else Returns cursorPath
  end.

(** [new VSCodeHistoryParser()] *)
Definition new_VSCodeHistoryParser (fs : fsys) : outcome VSCodeHistoryParser :=
  match getHistoryDirectory fs with
  | Returns dir => Returns {| historyDir := dir |}
  | Throws => Throws
  end.
End StoreLocator.

(** ** [listHistoryFiles] of [index.ts] *)

Record FileListItem := {
  listedPath : jsstring;
  entryCount : nat;
  lastModified : jsstring
}.

Section ReadHandlers.
Context `{Host}.
(** [new Date(t).toISOString()] *)
Variable toISOString : Z -> jsstring.
Variable historyParser : VSCodeHistoryParser.

(** [history.entries[0]?.timestamp || 0] *)
Definition first_timestamp_or_zero (history : FileHistory) : Z :=
  match head (entries history) with
  | Some entry => if decide (timestamp entry = 0%Z) then 0%Z else timestamp entry
  | None => 0%Z
  end.

(** The array [fileList] of [listHistoryFiles]. *)
Definition fileList (fs : fsys) : list FileListItem :=
  map (fun history =>
         {| listedPath := originalFilePath history;
            entryCount := length (entries history);
            lastModified := toISOString (first_timestamp_or_zero history) |})
    (getAllFileHistories historyParser fs).

Definition file_lines (item : FileListItem) : jsstring :=
  page_icon ++ js " " ++ listedPath item ++ newline
  ++ js "   " ++ tree_branch ++ js " " ++ showZ (Z.of_nat (entryCount item))
  ++ js " history entries" ++ newline
  ++ js "   " ++ tree_branch ++ js " Last saved: " ++ lastModified item.

(** The [text] of the result of [listHistoryFiles]. *)
Definition listHistoryFiles (fs : fsys) : jsstring :=
  js "Found " ++ showZ (Z.of_nat (length (fileList fs)))
  ++ js " files with local history:" ++ newline ++ newline
  ++ join_lines (newline ++ newline) (map file_lines (fileList fs)).
End ReadHandlers.

(** ** Further properties the theorems are stated with *)

(** A code unit of a URI that [encodeURI] writes: a character it keeps,
    or the percent sign of an escape. *)
Definition uri_character (c : N) : bool :=
  URI.unescaped_encodeURI c || (c =? 37)%N.

(** [a] comes before [b], or is [b], in the order of [sort()]. *)
Definition name_le (a b : jsstring) : Prop := (compare_strings a b <= 0)%Z.

(** The order of the entries of a FileHistory: the later snapshot first,
    and of two snapshots of one time the one whose name comes first. *)
Definition recency_then_name (a b : HistoryEntry) : Prop :=
  (timestamp b < timestamp a)%Z
  \/ (timestamp a = timestamp b /\ name_le (relativePath a) (relativePath b)).

Section Occurrences.
Context `{Host}.

(** [mid] is the term: as it is, or character by character up to the case
    folding of the regular expression. *)
Definition is_occurrence (caseSensitive : bool) (term mid : jsstring) : Prop :=
  if caseSensitive then mid = term
  else Forall2 (fun a b => canonicalize a = canonicalize b) term mid.

(** The term occurs in [text] at position [i]. *)
Definition occurs_at (caseSensitive : bool) (term text : jsstring) (i : nat) : Prop :=
  exists pre mid post,
    text = pre ++ mid ++ post /\ length pre = i /\ is_occurrence caseSensitive term mid.

(** [occurrence_count caseSensitive term text start n]: reading [text]
    from position [start] on, [n] occurrences of the term are met, each
    the first one that starts where the reading has come to or later.
    After an occurrence the reading goes on behind it, so occurrences that
    are counted do not overlap; after an occurrence of the empty term it
    goes on one position further. *)
Inductive occurrence_count (caseSensitive : bool) (term text : jsstring)
  : nat -> nat -> Prop :=
| count_end start :
    (forall i, (start <= i)%nat -> ~ occurs_at caseSensitive term text i) ->
    occurrence_count caseSensitive term text start 0
| count_next start i n :
    (start <= i)%nat ->
    occurs_at caseSensitive term text i ->
    (forall j, (start <= j < i)%nat -> ~ occurs_at caseSensitive term text j) ->
    occurrence_count caseSensitive term text (i + Nat.max 1 (length term)) n ->
    occurrence_count caseSensitive term text start (S n).
End Occurrences.

(** A Linux process whose home holds the store of Code only. *)
Module Linux.
Definition proc : process :=
  {| platform := js "linux"; homedir := js "/home/u"; APPDATA := None |}.

Definition join_segments (base : jsstring) (segments : list jsstring) : jsstring :=
  fold_left Posix.join segments base.

Definition code_only : fsys :=
  list_to_map [ (js "/home/u/.config/Code/User/History", Posix.folder []) ].

(** Two snapshots of one time and a third, older one. *)
Definition store_ties : fsys :=
  list_to_map
    [ (js "/h", Posix.folder [(js "d1", true)]);
      (js "/h/d1",
       Posix.folder [(js "zz", false); (js "entries.json", false);
                     (js "mm", false); (js "aa", false)]);
      (js "/h/d1/entries.json", Posix.plain 10 (Posix.metadata (js "/a/b.txt")));
      (js "/h/d1/zz", Posix.plain 200 (js "late, last name"));
      (js "/h/d1/mm", Posix.plain 100 (js "old"));
      (js "/h/d1/aa", Posix.plain 200 (js "late, first name")) ].

Definition ties_history : FileHistory :=
  {| originalFilePath := js "/a/b.txt";
     entries := [Posix.snapshot (js "d1") (js "aa") 200 (js "late, first name");
                 Posix.snapshot (js "d1") (js "zz") 200 (js "late, last name");
                 Posix.snapshot (js "d1") (js "mm") 100 (js "old")] |}.

(** A descriptor whose [resource] is a URI with a stray percent sign,
    listed before a sound one. *)
Definition store_bad_uri : fsys :=
  list_to_map
    [ (js "/h", Posix.folder [(js "d0", true); (js "d1", true)]);
      (js "/h/d0", Posix.folder [(js "entries.json", false)]);
      (js "/h/d0/entries.json", Posix.plain 10 (Posix.metadata (js "file:///a/100%.txt")));
      (js "/h/d1", Posix.folder [(js "entries.json", false); (js "x1", false)]);
      (js "/h/d1/entries.json", Posix.plain 10 (Posix.metadata (js "/a/b.txt")));
      (js "/h/d1/x1", Posix.plain 100 (js "first draft")) ].

Definition bad_uri_history : FileHistory :=
  {| originalFilePath := js "file:///a/100%.txt"; entries := [] |}.

Definition sound_history : FileHistory :=
  {| originalFilePath := js "/a/b.txt";
     entries := [Posix.snapshot (js "d1") (js "x1") 100 (js "first draft")] |}.
End Linux.

(** * Examples and proofs *)

Example uriToPath_spaces :
  uriToPath (js "file:///Users/test/file%20with%20spaces.txt")
  = Some (js "/Users/test/file with spaces.txt").
Proof. vm_compute. reflexivity. Qed.

Example pathToUri_plain :
  pathToUri (js "/Users/test/file.txt") = Some (js "file:///Users/test/file.txt").
Proof. vm_compute. reflexivity. Qed.

Example roundtrip_astral :
  (pathToUri [47; 0xD83D; 0xDCC4; 32; 0xE9; 37]%N ≫= uriToPath)
  = Some [47; 0xD83D; 0xDCC4; 32; 0xE9; 37]%N.
Proof. vm_compute. reflexivity. Qed.

Module URIFacts.
Import URI.
Local Open Scope N_scope.

(* [lia] with division and remainder by constants. *)
Ltac Zify.zify_post_hook ::= Z.to_euclidean_division_equations.

Ltac cmp_cases :=
  repeat match goal with
    | |- context [N.ltb ?a ?b] => destruct (N.ltb_spec a b); try lia
    | |- context [N.leb ?a ?b] => destruct (N.leb_spec a b); try lia
    | |- context [N.eqb ?a ?b] => destruct (N.eqb_spec a b); try lia
    end.

Lemma hexval_hexdigit v : v < 16 -> hexval (hexdigit v) = Some v.
Proof.
  intros Hv. unfold hexval, hexdigit, is_digit.
  cmp_cases; cbn [andb]; f_equal; lia.
Qed.

Lemma take_octet_pct b r : b < 256 -> take_octet (pct b ++ r) = Some (b, r).
Proof.
  intros Hb. unfold pct, take_octet. cbn [app].
  rewrite N.eqb_refl.
  rewrite !hexval_hexdigit by lia.
  do 2 f_equal. lia.
Qed.

Lemma pct_all_cons b bs r : pct_all (b :: bs) ++ r = pct b ++ (pct_all bs ++ r).
Proof. unfold pct_all. cbn [map concat]. now rewrite <- app_assoc. Qed.

Lemma take_continuation_pct bs r :
  Forall (fun b => b < 256) bs ->
  take_continuation (length bs) (pct_all bs ++ r) = Some (bs, r).
Proof.
  induction 1 as [|b bs Hb _ IH]; [reflexivity|].
  rewrite pct_all_cons. cbn [length take_continuation].
  rewrite take_octet_pct by assumption.
  now rewrite IH.
Qed.

Lemma decode_nil f : decode f [] = Some [].
Proof. now destruct f. Qed.

Lemma decode_cons f c rest :
  decode (S f) (c :: rest) =
    if c =? 37 then
      match take_octet (c :: rest) with
      | None => None
      | Some (b, r) =>
          match leading_ones b with
          | O => cons b <$> decode f r
          | 1%nat => None
          | S n =>
              if (3 <? n)%nat then None
              else
                match take_continuation n r with
                | None => None
                | Some (bs, r') =>
                    match utf8_decode (b :: bs) with
                    | None => None
                    | Some cp => app (utf16_encode cp) <$> decode f r'
                    end
                end
          end
      end
    else cons c <$> decode f rest.
Proof. reflexivity. Qed.

Lemma decode_ascii_escape f b r :
  b < 0x80 -> decode (S f) (pct b ++ r) = cons b <$> decode f r.
Proof.
  intros Hb.
  change (pct b ++ r) with (37 :: hexdigit (b / 16) :: hexdigit (b mod 16) :: r).
  rewrite decode_cons, N.eqb_refl.
  change (37 :: hexdigit (b / 16) :: hexdigit (b mod 16) :: r) with (pct b ++ r).
  rewrite take_octet_pct by lia.
  unfold leading_ones. cmp_cases. reflexivity.
Qed.

Lemma decode_multibyte f b bs r cp :
  b < 256 -> Forall (fun x => x < 256) bs ->
  leading_ones b = S (length bs) ->
  (1 <= length bs <= 3)%nat ->
  utf8_decode (b :: bs) = Some cp ->
  decode (S f) (pct_all (b :: bs) ++ r) = app (utf16_encode cp) <$> decode f r.
Proof.
  intros Hb Hbs Hlead Hlen Hdec.
  rewrite pct_all_cons.
  change (pct b ++ ?t) with (37 :: hexdigit (b / 16) :: hexdigit (b mod 16) :: t).
  rewrite decode_cons, N.eqb_refl.
  change (37 :: hexdigit (b / 16) :: hexdigit (b mod 16) :: ?t) with (pct b ++ t).
  rewrite take_octet_pct by assumption.
  rewrite Hlead.
  destruct (length bs) as [|n] eqn:Hn; [lia|].
  destruct (Nat.ltb_spec 3 (S n)); [lia|].
  rewrite <- Hn, take_continuation_pct by assumption.
  now rewrite Hdec.
Qed.

Lemma utf8_encode_multibyte cp :
  scalar cp -> 0x80 <= cp ->
  exists b bs,
    utf8_encode cp = b :: bs /\ b < 256 /\ Forall (fun x => x < 256) bs
    /\ leading_ones b = S (length bs) /\ (1 <= length bs <= 3)%nat
    /\ utf8_decode (b :: bs) = Some cp.
Proof.
  intros [Hmax Hsur] Hlo. unfold utf8_encode.
  destruct (N.ltb_spec cp 0x80); [lia|].
  destruct (N.ltb_spec cp 0x800); [|destruct (N.ltb_spec cp 0x10000)].
  - eexists _, [_]. split; [reflexivity|].
    repeat split.
    + lia.
    + repeat constructor; lia.
    + unfold leading_ones; cmp_cases; reflexivity.
    + cbn; lia.
    + cbn; lia.
    + unfold utf8_decode, is_continuation. cmp_cases; cbn [andb]; f_equal; lia.
  - eexists _, [_; _]. split; [reflexivity|].
    repeat split.
    + lia.
    + repeat constructor; lia.
    + unfold leading_ones; cmp_cases; reflexivity.
    + cbn; lia.
    + cbn; lia.
    + unfold utf8_decode, is_continuation. cmp_cases; cbn [andb negb]; f_equal; lia.
  - eexists _, [_; _; _]. split; [reflexivity|].
    repeat split.
    + lia.
    + repeat constructor; lia.
    + unfold leading_ones; cmp_cases; reflexivity.
    + cbn; lia.
    + cbn; lia.
    + unfold utf8_decode, is_continuation. cmp_cases; cbn [andb]; f_equal; lia.
Qed.

(** One escaped code point decodes to its UTF-16 form. *)
Lemma decode_code_point f cp r :
  scalar cp ->
  decode (S f) (pct_all (utf8_encode cp) ++ r) = app (utf16_encode cp) <$> decode f r.
Proof.
  intros Hcp. destruct (N.ltb_spec cp 0x80) as [Hlt|Hge].
  - unfold utf8_encode, utf16_encode.
    destruct (N.ltb_spec cp 0x80); [|lia].
    destruct (N.ltb_spec cp 0x10000); [|lia].
    rewrite pct_all_cons. change (pct_all [] ++ r) with r.
    now rewrite decode_ascii_escape.
  - destruct (utf8_encode_multibyte cp Hcp Hge)
      as (b & bs & -> & Hb & Hbs & Hlead & Hlen & Hdec).
    now apply decode_multibyte.
Qed.

Lemma escaped_nonempty cp : (0 < length (pct_all (utf8_encode cp)))%nat.
Proof.
  assert (exists b bs, utf8_encode cp = b :: bs) as (b & bs & ->).
  { unfold utf8_encode. cmp_cases; eauto. }
  unfold pct_all. cbn. lia.
Qed.

Lemma unescaped_ascii c : unescaped_encodeURI c = true -> c < 128 /\ c <> 37.
Proof.
  intros H. split.
  - destruct (N.ltb_spec c 128) as [|Hge]; [assumption|exfalso].
    revert H.
    unfold unescaped_encodeURI, always_unescaped, is_alpha, is_digit, in_set.
    cbn [uri_mark uri_reserved_hash js list_ascii_of_string map existsb N_of_ascii
         N_of_digits N.add N.mul].
    cmp_cases; try discriminate.
  - intros ->. vm_compute in H. discriminate.
Qed.

Lemma pair_code_point_scalar c d :
  is_lead c = true -> is_trail d = true ->
  scalar (pair_code_point c d) /\ utf16_encode (pair_code_point c d) = [c; d].
Proof.
  unfold is_lead, is_trail, scalar, pair_code_point, utf16_encode.
  intros [H1 H2]%andb_true_iff [H3 H4]%andb_true_iff.
  apply N.leb_le in H1, H2, H3, H4.
  split; [lia|].
  cmp_cases. f_equal; [lia|f_equal; lia].
Qed.

Lemma bmp_scalar c :
  c < 0x10000 -> is_lead c = false -> is_trail c = false ->
  scalar c /\ utf16_encode c = [c].
Proof.
  unfold is_lead, is_trail, scalar, utf16_encode.
  intros Hc [H1|H1]%andb_false_iff [H2|H2]%andb_false_iff;
    apply N.leb_gt in H1, H2; (split; [lia|]); cmp_cases; reflexivity.
Qed.

Lemma decode_encode n : forall s out f,
  (length s <= n)%nat ->
  well_formed s = true ->
  encode unescaped_encodeURI s = Some out ->
  (length out <= f)%nat ->
  decode f out = Some s.
Proof.
  induction n as [|n IH]; intros s out f Hn Hwf Henc Hf.
  { destruct s; [|cbn in Hn; lia]. inversion Henc. apply decode_nil. }
  destruct s as [|c rest]; [inversion Henc; apply decode_nil|].
  cbn [encode] in Henc. cbn [well_formed] in Hwf. cbn [length] in Hn.
  destruct (N.ltb_spec c 0x10000) as [Hc|]; [|discriminate]. cbn [negb] in Hwf.
  destruct (unescaped_encodeURI c) eqn:Hun.
  - destruct (unescaped_ascii c Hun) as [Hlt H37].
    assert (is_lead c = false) as Hl by (unfold is_lead; cmp_cases; reflexivity).
    assert (is_trail c = false) as Ht by (unfold is_trail; cmp_cases; reflexivity).
    rewrite Hl, Ht in Hwf. cbn in Hwf.
    destruct (encode unescaped_encodeURI rest) as [out'|] eqn:Hrest; [|discriminate].
    inversion Henc; subst out; clear Henc.
    destruct f as [|f]; [cbn in Hf; lia|].
    rewrite decode_cons. destruct (N.eqb_spec c 37); [contradiction|].
    rewrite (IH rest out' f); [reflexivity|lia|assumption|assumption|cbn in Hf; lia].
  - destruct (is_lead c) eqn:Hl.
    + destruct rest as [|d rest']; [discriminate|].
      destruct (is_trail d) eqn:Htd; [|discriminate].
      cbn [andb] in Hwf.
      destruct (encode unescaped_encodeURI rest') as [out'|] eqn:Hrest; [|discriminate].
      inversion Henc; subst out; clear Henc.
      destruct (pair_code_point_scalar c d Hl Htd) as [Hs H16].
      pose proof (escaped_nonempty (pair_code_point c d)) as Hne.
      rewrite length_app in Hf.
      destruct f as [|f]; [clear -Hf Hne; lia|].
      rewrite decode_code_point by assumption. rewrite H16.
      rewrite (IH rest' out' f); [reflexivity|clear -Hn; cbn in Hn; lia|assumption|assumption|].
      clear -Hf Hne. lia.
    + destruct (is_trail c) eqn:Ht; [discriminate|].
      cbn [negb andb] in Hwf.
      destruct (encode unescaped_encodeURI rest) as [out'|] eqn:Hrest; [|discriminate].
      inversion Henc; subst out; clear Henc.
      destruct (bmp_scalar c Hc Hl Ht) as [Hs H16].
      pose proof (escaped_nonempty c) as Hne.
      rewrite length_app in Hf.
      destruct f as [|f]; [clear -Hf Hne; lia|].
      rewrite decode_code_point by assumption. rewrite H16.
      rewrite (IH rest out' f); [reflexivity|clear -Hn; lia|assumption|assumption|].
      clear -Hf Hne. lia.
Qed.

(** [encodeURI] throws on ill-formed text only. *)
Lemma encode_well_formed n : forall s,
  (length s <= n)%nat -> well_formed s = true ->
  exists out, encode unescaped_encodeURI s = Some out.
Proof.
  induction n as [|n IH]; intros s Hn Hwf.
  { destruct s; [now exists []|cbn in Hn; lia]. }
  destruct s as [|c rest]; [now exists []|].
  cbn [encode]. cbn [well_formed] in Hwf. cbn [length] in Hn.
  destruct (N.ltb_spec c 0x10000) as [Hc|]; [|discriminate]. cbn [negb] in Hwf.
  destruct (unescaped_encodeURI c) eqn:Hun.
  - destruct (unescaped_ascii c Hun) as [Hlt H37].
    assert (is_lead c = false) as Hl by (unfold is_lead; cmp_cases; reflexivity).
    assert (is_trail c = false) as Ht by (unfold is_trail; cmp_cases; reflexivity).
    rewrite Hl, Ht in Hwf. cbn in Hwf.
    destruct (IH rest) as [out' ->]; [lia|assumption|]. eauto.
  - destruct (is_lead c).
    + destruct rest as [|d rest']; [discriminate|].
      apply andb_true_iff in Hwf as [-> Hwf].
      destruct (IH rest') as [out' ->]; [cbn in Hn; lia|assumption|]. eauto.
    + apply andb_true_iff in Hwf as [Ht Hwf].
      apply negb_true_iff in Ht. rewrite Ht.
      destruct (IH rest) as [out' ->]; [lia|assumption|]. eauto.
Qed.

Lemma decodeURIComponent_encodeURI s :
  well_formed s = true ->
  exists out, encodeURI s = Some out /\ decodeURIComponent out = Some s.
Proof.
  intros Hwf.
  destruct (encode_well_formed (length s) s) as [out Hout]; [lia|assumption|].
  exists out. split; [assumption|].
  now apply (decode_encode (length s) s).
Qed.
End URIFacts.

Lemma file_scheme_units : file_scheme = [102; 105; 108; 101; 58; 47; 47]%N.
Proof. reflexivity. Qed.

Lemma roundtrip_well_formed p :
  URI.well_formed p = true -> startsWith file_scheme p = false ->
  pathToUri p ≫= uriToPath = Some p.
Proof.
  intros Hwf Hpre.
  destruct (URIFacts.decodeURIComponent_encodeURI p Hwf) as (out & Henc & Hdec).
  unfold pathToUri. rewrite Hpre, Henc. cbn [negb fmap option_fmap option_map mbind option_bind].
  unfold uriToPath. rewrite file_scheme_units.
  cbn [app startsWith N.eqb Pos.eqb andb drop]. assumption.
Qed.

Lemma safe_path_not_uri p : safe_path p = true -> startsWith file_scheme p = false.
Proof.
  unfold safe_path. intros [_ H]%andb_true_iff.
  rewrite file_scheme_units.
  destruct p as [|a [|b [|c [|d [|e p]]]]]; cbn [startsWith];
    rewrite ?andb_false_r; try reflexivity.
  destruct (N.eqb_spec 58 e) as [<-|]; [|now rewrite !andb_false_r].
  cbn [forallb] in H. rewrite !andb_true_iff in H.
  destruct H as (_ & _ & _ & _ & H & _). vm_compute in H. discriminate.
Qed.

(** C4. A path made of safe characters only (spaces and non-ASCII text
    included, reserved characters apart from the separator excluded)
    survives [pathToUri] followed by [uriToPath]; and [uriToPath] returns
    unchanged any string that does not start with [file://]. *)
Theorem uriToPath_pathToUri_roundtrip :
  (forall p, safe_path p = true -> pathToUri p ≫= uriToPath = Some p)
  /\ (forall s, startsWith file_scheme s = false -> uriToPath s = Some s).
Proof.
  split.
  - intros p Hsafe. apply roundtrip_well_formed.
    + unfold safe_path in Hsafe. now apply andb_true_iff in Hsafe as [? _].
    + now apply safe_path_not_uri.
  - intros s Hs. unfold uriToPath. now rewrite Hs.
Qed.

Lemma uriToPath_pathToUri_roundtrip_witness :
  (pathToUri [47; 0xE9; 32; 0xD83D; 0xDCC4; 47; 98]%N ≫= uriToPath)
    = Some [47; 0xE9; 32; 0xD83D; 0xDCC4; 47; 98]%N
  /\ uriToPath (js "/Users/test/file.txt") = Some (js "/Users/test/file.txt").
Proof.
  split.
  - apply (proj1 uriToPath_pathToUri_roundtrip). vm_compute. reflexivity.
  - apply (proj2 uriToPath_pathToUri_roundtrip). vm_compute. reflexivity.
Defined.

(** ** Sorting *)

Lemma sort_insert_newer_first x l :
  Sorted newer_first l -> Sorted newer_first (sort_insert most_recent_first x l).
Proof.
  induction 1 as [|y l Hl IH Hhd]; cbn [sort_insert].
  - repeat constructor.
  - unfold most_recent_first at 1.
    destruct (Z.leb_spec (timestamp y - timestamp x) 0) as [Hle|Hgt].
    + constructor; [now constructor|]. constructor. unfold newer_first. lia.
    + constructor; [assumption|].
      destruct Hhd as [|z l' Hyz]; cbn [sort_insert].
      * constructor. unfold newer_first. lia.
      * unfold most_recent_first at 1.
        destruct (Z.leb_spec (timestamp z - timestamp x) 0);
          constructor; unfold newer_first in *; lia.
Qed.

Lemma js_sort_newer_first l : Sorted newer_first (js_sort most_recent_first l).
Proof.
  induction l as [|x l IH]; cbn [js_sort foldr]; [constructor|].
  now apply sort_insert_newer_first.
Qed.

Lemma Sorted_adjacent {A} (R : A -> A -> Prop) (l : list A) :
  Sorted R l -> forall (i : nat) a b, l !! i = Some a -> l !! S i = Some b -> R a b.
Proof.
  induction 1 as [|x l Hl IH Hhd]; intros i a b Ha Hb; [discriminate|].
  destruct i as [|i].
  - cbn in Ha, Hb. inversion Ha; subst x.
    destruct Hhd as [|y l' Hxy]; [discriminate|].
    cbn in Hb. now inversion Hb; subst.
  - cbn in Ha. change ((x :: l) !! S (S i)) with (l !! S i) in Hb. eauto.
Qed.

(** A stable sort keeps the elements. *)
Lemma sort_insert_Permutation {A} (cmp : A -> A -> Z) x l :
  sort_insert cmp x l ≡ₚ x :: l.
Proof.
  induction l as [|y l IH]; cbn [sort_insert]; [reflexivity|].
  destruct (cmp x y <=? 0)%Z; [reflexivity|].
  rewrite IH. apply Permutation_swap.
Qed.

Lemma js_sort_Permutation {A} (cmp : A -> A -> Z) l : js_sort cmp l ≡ₚ l.
Proof.
  induction l as [|x l IH]; cbn [js_sort foldr]; [reflexivity|].
  rewrite sort_insert_Permutation. now constructor.
Qed.

(** ** The snapshot directory reader *)

Section ParserFacts.
Context `{Host}.
Variable this : VSCodeHistoryParser.

(** What a non-null result of [getFileHistory] tells. *)
Lemma getFileHistory_Some fs hashDir h :
  getFileHistory this fs hashDir = Some h <->
  exists r dirents es,
    existsSync fs (path_join (historyDir this) hashDir) = true
    /\ parseEntriesJson fs (path_join (historyDir this) hashDir)
       = Some {| resource := Some r |}
    /\ r <> []
    /\ readdirSync fs (path_join (historyDir this) hashDir) = Some dirents
    /\ read_entries fs (path_join (historyDir this) hashDir)
         (js_sort compare_strings (snapshot_names dirents)) = Some es
    /\ h = {| originalFilePath := r; entries := js_sort most_recent_first es |}.
Proof.
  unfold getFileHistory, snapshot_names.
  set (dirPath := path_join (historyDir this) hashDir).
  split.
  - destruct (existsSync fs dirPath); cbn [negb]; [|discriminate].
    destruct (parseEntriesJson fs dirPath) as [[[r|]]|]; try discriminate.
    destruct r as [|c r]; [discriminate|].
    destruct (readdirSync fs dirPath) as [dirents|]; [|discriminate].
    destruct (read_entries _ _ _) as [es|] eqn:Hes; [|discriminate].
    intros [= <-]. exists (c :: r), dirents, es. now rewrite Hes.
  - intros (r & dirents & es & -> & -> & Hr & -> & Hes & ->).
    cbn [negb resource]. destruct r; [contradiction|]. now rewrite Hes.
Qed.

Lemma getAllFileHistories_elem fs h :
  h ∈ getAllFileHistories this fs <->
  exists hashDir, hashDir ∈ getHistoryDirectories this fs
                  /\ getFileHistory this fs hashDir = Some h.
Proof. unfold getAllFileHistories. apply list_elem_of_omap. Qed.


(** The entries are those of the snapshots that can be read. *)
Lemma read_entries_elem fs dirPath files es e :
  read_entries fs dirPath files = Some es ->
  e ∈ es <->
  exists file, file ∈ files
    /\ statSync fs (path_join dirPath file) = Some (timestamp e)
    /\ readFileSync fs (path_join dirPath file) = Some (content e)
    /\ filePath e = path_join dirPath file /\ relativePath e = file.
Proof.
  revert es. induction files as [|file files IH]; intros es; cbn [read_entries].
  - intros [= <-]. split; [intros []%elem_of_nil|intros (? & []%elem_of_nil & _)].
  - destruct (statSync fs (path_join dirPath file)) as [m|] eqn:Hstat; [|discriminate].
    destruct (readFileSync fs (path_join dirPath file)) as [c|] eqn:Hread.
    + destruct (read_entries fs dirPath files) as [es'|]; [|discriminate].
      cbn. intros [= <-]. rewrite elem_of_cons, (IH es' eq_refl). split.
      * intros [->|(f & Hf & Hrest)].
        -- exists file. cbn. rewrite elem_of_cons. auto.
        -- exists f. rewrite elem_of_cons. auto.
      * intros (f & [->|Hf]%elem_of_cons & Hs & Hr & Hp & Hn).
        -- left. destruct e as [t c' p' n']; cbn in *.
           rewrite Hstat in Hs. rewrite Hread in Hr. congruence.
        -- right. exists f. auto.
    + intros Hes. rewrite (IH es Hes). split.
      * intros (f & Hf & Hrest). exists f. rewrite elem_of_cons. auto.
      * intros (f & [->|Hf]%elem_of_cons & Hs & Hr & Hrest); [congruence|].
        exists f. auto.
Qed.
End ParserFacts.

(** ** Examples on the store of the [Posix] host *)

Example store_histories :
  getAllFileHistories Posix.parser Posix.store
  = [Posix.notes_history; Posix.upper_history; Posix.lower_history].
Proof. vm_compute. reflexivity. Qed.

Example store_lookup_latest :
  findHistoryByFilePath Posix.parser Posix.store (js "/x/notes.md")
  = Returns (Some Posix.notes_history).
Proof. vm_compute. reflexivity. Qed.

Example store_lookup_unknown :
  findHistoryByFilePath Posix.parser Posix.store (js "/non/existent/file.txt")
  = Returns None.
Proof. vm_compute. reflexivity. Qed.

(** ** The reader: order, totals and null results *)

(** C3. The entries of every FileHistory that [getFileHistory] returns,
    and so of every element of [getAllFileHistories], are in
    non-increasing order of timestamp: at adjacent indices [i] and [i+1],
    [entries[i].timestamp >= entries[i+1].timestamp], whatever the name
    order in which the snapshots were read. *)
Theorem entries_sorted_by_timestamp `{Host} this fs h :
  (exists hashDir, getFileHistory this fs hashDir = Some h)
  \/ h ∈ getAllFileHistories this fs ->
  forall (i : nat) a b,
    entries h !! i = Some a -> entries h !! S i = Some b ->
    (timestamp b <= timestamp a)%Z.
Proof.
  intros Hh.
  assert (exists hashDir, getFileHistory this fs hashDir = Some h) as [hashDir Hget].
  { destruct Hh as [?|Hin]; [assumption|].
    apply getAllFileHistories_elem in Hin as (d & _ & ?). eauto. }
  apply getFileHistory_Some in Hget as (r & dirents & es & _ & _ & _ & _ & _ & ->).
  cbn [entries]. intros i a b.
  apply (Sorted_adjacent newer_first), js_sort_newer_first.
Qed.

Lemma entries_sorted_by_timestamp_witness : (100 <= 200)%Z.
Proof.
  assert (getFileHistory Posix.parser Posix.store (js "d1") = Some Posix.upper_history)
    as Hget by (vm_compute; reflexivity).
  exact (entries_sorted_by_timestamp Posix.parser Posix.store Posix.upper_history
           (or_introl (ex_intro _ (js "d1") Hget)) 0%nat
           (Posix.snapshot (js "d1") (js "x2") 200 (js "second draft"))
           (Posix.snapshot (js "d1") (js "x1") 100 (js "first draft"))
           eq_refl eq_refl).
Defined.

Lemma fold_left_lengths (l : list FileHistory) (n : nat) :
  fold_left (fun sum history => sum + length (entries history))%nat l n
  = (n + sum_list (map (fun history => length (entries history)) l))%nat.
Proof.
  revert n. induction l as [|h l IH]; intros n; cbn [fold_left map sum_list].
  - lia.
  - rewrite IH. cbn. lia.
Qed.

(** C8. [getHistoryStats()] returns as [totalEntries] the sum of
    [entries.length] over the histories of [getAllFileHistories()], and as
    [totalFiles] their number. *)
Theorem getHistoryStats_totals `{Host} this fs :
  totalEntries (getHistoryStats this fs)
  = sum_list (map (fun history => length (entries history)) (getAllFileHistories this fs))
  /\ totalFiles (getHistoryStats this fs) = length (getAllFileHistories this fs).
Proof.
  unfold getHistoryStats. cbn [totalEntries totalFiles].
  now rewrite fold_left_lengths.
Qed.

Example store_stats :
  getHistoryStats Posix.parser Posix.store
  = {| totalFiles := 3; totalEntries := 5; historyDirExists := true;
       historyDirPath := js "/h" |}.
Proof. vm_compute. reflexivity. Qed.

(** A snapshot that cannot be stat'ed ends the loop, wherever it stands
    in the listing. *)
Lemma read_entries_stat_failure `{Host} fs dirPath files file :
  file ∈ files -> statSync fs (path_join dirPath file) = None ->
  read_entries fs dirPath files = None.
Proof.
  induction files as [|f files IH]; [intros []%elem_of_nil|].
  intros [->|Hin]%elem_of_cons Hstat; cbn [read_entries].
  - now rewrite Hstat.
  - destruct (statSync fs (path_join dirPath f)); [|reflexivity].
    rewrite (IH Hin Hstat). now destruct (readFileSync fs (path_join dirPath f)).
Qed.

Lemma getFileHistory_stat_failure `{Host} this fs hashDir dirents file :
  readdirSync fs (path_join (historyDir this) hashDir) = Some dirents ->
  file ∈ snapshot_names dirents ->
  statSync fs (path_join (path_join (historyDir this) hashDir) file) = None ->
  getFileHistory this fs hashDir = None.
Proof.
  intros Hdir Hin Hstat.
  destruct (getFileHistory this fs hashDir) as [h|] eqn:Hget; [exfalso|reflexivity].
  apply getFileHistory_Some in Hget as (r & dirents' & es & _ & _ & _ & Hdir' & Hes & _).
  rewrite Hdir in Hdir'. injection Hdir' as <-.
  rewrite (read_entries_stat_failure fs _ _ file) in Hes; [discriminate| |assumption].
  now rewrite js_sort_Permutation.
Qed.

(** C2, at a directory that lists a link to nowhere: [statSync] throws
    outside the inner [try], and the whole directory yields [null] although
    its other snapshot can be read. *)
Theorem stat_failure_discards_directory :
  readdirSync Posix.store_dangling (js "/h/d1")
  = Some [ {| d_name := js "entries.json"; d_isDirectory := false |};
           {| d_name := js "gone"; d_isDirectory := false |};
           {| d_name := js "x1"; d_isDirectory := false |} ]
  /\ parseEntriesJson Posix.store_dangling (js "/h/d1")
     = Some {| resource := Some (js "/a/b.txt") |}
  /\ statSync Posix.store_dangling (js "/h/d1/gone") = None
  /\ readFileSync Posix.store_dangling (js "/h/d1/x1") = Some (js "first draft")
  /\ getFileHistory Posix.parser Posix.store_dangling (js "d1") = None.
Proof. vm_compute. repeat split; reflexivity. Qed.

(** A snapshot whose content cannot be read is skipped, the others are
    kept. *)
Lemma unreadable_snapshot_skipped `{Host} fs dirPath file files es :
  statSync fs (path_join dirPath file) <> None ->
  readFileSync fs (path_join dirPath file) = None ->
  read_entries fs dirPath files = Some es ->
  read_entries fs dirPath (file :: files) = Some es.
Proof.
  intros Hstat Hread Hes. cbn [read_entries].
  destruct (statSync fs (path_join dirPath file)); [|contradiction].
  now rewrite Hread.
Qed.





(** ** Lookup by path *)

Section LookupFacts.
Context `{Host}.

Lemma find_history_first t pre h post :
  Forall (no_match t) pre ->
  exact_match t h \/ caseless_match t h ->
  find_history (path_resolve t) (pre ++ h :: post) = Returns (Some h).
Proof.
  intros Hpre Hh. induction Hpre as [|h' pre (p' & Hp' & Hne) _ IH]; cbn [app find_history].
  - destruct Hh as [(p & -> & Hp)|(p & -> & Hp)].
    + rewrite decide_True by congruence. reflexivity.
    + destruct (decide (path_resolve t = path_resolve p)); [reflexivity|].
      rewrite decide_True by congruence. reflexivity.
  - rewrite Hp'.
    rewrite decide_False by (intros Heq; apply Hne; now rewrite Heq).
    rewrite decide_False by congruence. exact IH.
Qed.
End LookupFacts.

(** C1, as stated, fails on a store that lists [/A/b.txt] before
    [/a/b.txt]: the lookup of [/a/b.txt] stops at the first, which matches
    up to case only. *)
Lemma caseless_match_shadows_exact :
  ~ exact_match_wins Posix.parser Posix.store (js "/a/b.txt").
Proof.
  intros Hwins.
  destruct (Hwins (js "/a/b.txt") Posix.lower_history) as (h' & Hfind & p & Hp & Hres).
  - reflexivity.
  - rewrite store_histories. apply list_elem_of_In. cbn. auto.
  - exists (js "/a/b.txt"). split; reflexivity.
  - vm_compute in Hfind. inversion Hfind; subst h'.
    vm_compute in Hp. inversion Hp; subst p.
    vm_compute in Hres. discriminate.
Qed.

(** C1, amended. [findHistoryByFilePath] scans the histories once, in
    iteration order. For a target that can be decoded, a history whose
    normalized original path equals the normalized target, exactly or up
    to case, is returned whenever every history before it in that order
    has an [originalFilePath] that can be decoded and that differs from
    the target also up to case. A history that matches exactly is
    therefore returned when no earlier history matches up to case and
    none has an [originalFilePath] that cannot be decoded. *)
Theorem first_match_is_returned `{Host} this fs targetFilePath t pre h post :
  uriToPath targetFilePath = Some t ->
  getAllFileHistories this fs = pre ++ h :: post ->
  Forall (fun earlier =>
            exists p,
              uriToPath (originalFilePath earlier) = Some p
              /\ toLowerCase (path_resolve p) <> toLowerCase (path_resolve t))
    pre ->
  exact_match t h \/ caseless_match t h ->
  findHistoryByFilePath this fs targetFilePath = Returns (Some h).
Proof.
  intros Ht Hall Hpre Hh. unfold findHistoryByFilePath.
  rewrite Ht, Hall. now apply find_history_first.
Qed.

Lemma first_match_is_returned_witness :
  findHistoryByFilePath Posix.parser Posix.store (js "/A/b.txt")
  = Returns (Some Posix.upper_history).
Proof.
  apply (first_match_is_returned Posix.parser Posix.store (js "/A/b.txt") (js "/A/b.txt")
           [Posix.notes_history] Posix.upper_history [Posix.lower_history]).
  - reflexivity.
  - vm_compute. reflexivity.
  - constructor; [|constructor].
    exists (js "/x/notes.md"). split; [reflexivity|]. vm_compute. discriminate.
  - left. exists (js "/A/b.txt"). split; reflexivity.
Defined.

(** ** Restore *)

(** C5. With an [entryIndex] outside [0, entries.length) of the matched
    FileHistory, [restoreFromHistory] returns the result that names the
    index and the range of valid indices, and the file system is left as
    it was: the state after the call is the state before it. *)
Theorem restore_rejects_invalid_index `{Host} this now fs filePath index createBackup
  history :
  findHistoryByFilePath this fs filePath = Returns (Some history) ->
  (index < 0 \/ Z.of_nat (length (entries history)) <= index)%Z ->
  restoreFromHistory this now fs filePath index createBackup
  = Returns (InvalidEntryIndex index (Z.of_nat (length (entries history)) - 1), fs)
  /\ text_of (InvalidEntryIndex index (Z.of_nat (length (entries history)) - 1))
     = js "Invalid entry index " ++ showZ index
       ++ js ". Available indices: 0-"
       ++ showZ (Z.of_nat (length (entries history)) - 1).
Proof.
  intros Hfind Hrange. split; [|reflexivity].
  unfold restoreFromHistory. rewrite Hfind.
  destruct (Z.ltb_spec index 0); [reflexivity|].
  destruct (Z.geb_spec index (Z.of_nat (length (entries history)))); [reflexivity|lia].
Qed.

Lemma restore_rejects_invalid_index_witness :
  restoreFromHistory Posix.parser 1000 Posix.store (js "/x/notes.md") 999 true
  = Returns (InvalidEntryIndex 999 0, Posix.store)
  /\ text_of (InvalidEntryIndex 999 0)
     = js "Invalid entry index 999. Available indices: 0-0".
Proof.
  apply (restore_rejects_invalid_index Posix.parser 1000 Posix.store (js "/x/notes.md")
           999 true Posix.notes_history).
  - vm_compute. reflexivity.
  - right. vm_compute. discriminate.
Defined.

Section WriteFacts.
Context `{Host}.


Lemma readFileSync_regular fs fs' q :
  regular fs' q = regular fs q -> readFileSync fs' q = readFileSync fs q.
Proof.
  unfold regular, readFileSync.
  destruct (fs' !! q) as [[? ? [] ?|]|], (fs !! q) as [[? ? [] ?|]|]; congruence.
Qed.


Lemma missing_not_regular (fs : fsys) p : existsSync fs p = false -> regular fs p = None.
Proof. unfold existsSync, regular. now destruct (fs !! p). Qed.

Lemma create_spec (fs : fsys) p n fs' :
  create fs p n = Some fs' ->
  fs' !! p = Some n
  /\ (forall q, q <> p -> regular fs' q = regular fs q)
  /\ (forall q, existsSync fs q = true -> existsSync fs' q = true).
Proof.
  unfold create.
  destruct (fs !! path_dirname p) as [[|m children r []]|] eqn:Hparent;
    try discriminate.
  intros [= <-]. split; [apply lookup_insert_eq|]. split.
  - intros q Hq. unfold regular. rewrite lookup_insert_ne by congruence.
    destruct (decide (path_dirname p = q)) as [<-|Hne].
    + now rewrite lookup_insert_eq, Hparent.
    + now rewrite lookup_insert_ne.
  - intros q. unfold existsSync.
    destruct (decide (p = q)) as [<-|]; [now rewrite lookup_insert_eq|].
    rewrite lookup_insert_ne by assumption.
    destruct (decide (path_dirname p = q)) as [<-|]; [now rewrite lookup_insert_eq|].
    now rewrite lookup_insert_ne.
Qed.

Lemma writeFileSync_spec (now : Z) (fs : fsys) p data fs' :
  writeFileSync now fs p data = Some fs' ->
  file_data fs' p = Some data
  /\ (forall q, q <> p -> regular fs' q = regular fs q)
  /\ (forall q, existsSync fs q = true -> existsSync fs' q = true).
Proof.
  unfold writeFileSync.
  destruct (fs !! p) as [[m old r []|]|] eqn:Hp; try discriminate.
  - intros [= <-]. split; [|split].
    + unfold file_data. now rewrite lookup_insert_eq.
    + intros q Hq. unfold regular. now rewrite lookup_insert_ne by congruence.
    + intros q. unfold existsSync.
      destruct (decide (p = q)) as [<-|]; [now rewrite lookup_insert_eq|].
      now rewrite lookup_insert_ne.
  - intros Hc. destruct (create_spec _ _ _ _ Hc) as (Hnew & Hreg & Hex).
    split; [|split]; [|assumption..].
    unfold file_data. now rewrite Hnew.
Qed.

Lemma mkdirp_spec fuel (now : Z) : forall (fs : fsys) d fs',
  mkdirp fuel now fs d = Some fs' ->
  (forall q, regular fs' q = regular fs q)
  /\ (forall q, existsSync fs q = true -> existsSync fs' q = true).
Proof.
  induction fuel as [|fuel IH]; intros fs d fs'; cbn [mkdirp];
    destruct (fs !! d) as [[]|] eqn:Hd; try discriminate;
    try (intros [= <-]; now split).
  destruct (mkdirp fuel now fs (path_dirname d)) as [fs1|] eqn:Hup; [|discriminate].
  intros Hc. destruct (IH _ _ _ Hup) as [Hreg1 Hex1].
  destruct (create_spec _ _ _ _ Hc) as (Hnew & Hreg & Hex).
  split.
  - intros q. destruct (decide (q = d)) as [->|Hq].
    + unfold regular. now rewrite Hnew, Hd.
    + now rewrite Hreg, Hreg1.
  - intros q Hq. now apply Hex, Hex1.
Qed.

(** More fuel does not change what [mkdirp] returns. *)
Lemma mkdirp_more_fuel fuel (now : Z) : forall (fs : fsys) d fs',
  mkdirp fuel now fs d = Some fs' -> mkdirp (S fuel) now fs d = Some fs'.
Proof.
  induction fuel as [|fuel IH]; intros fs d fs'.
  - cbn [mkdirp]. now destruct (fs !! d) as [[]|].
  - intros Hrun. cbn [mkdirp] in Hrun |- *.
    destruct (fs !! d) as [[]|]; try assumption.
    destruct (mkdirp fuel now fs (path_dirname d)) as [fs1|] eqn:Hup; [|discriminate].
    apply IH in Hup. cbn [mkdirp] in Hup. now rewrite Hup.
Qed.

(** The first step of the [try] block: the directory of the target. *)
Lemma ensure_directory_spec (now : Z) (fs : fsys) dir fs1 :
  (if negb (existsSync fs dir) then mkdirSync now fs dir else Some fs) = Some fs1 ->
  (forall q, regular fs1 q = regular fs q)
  /\ (forall q, existsSync fs q = true -> existsSync fs1 q = true).
Proof.
  destruct (existsSync fs dir); cbn [negb].
  - intros [= <-]. now split.
  - apply mkdirp_spec.
Qed.






(** A path that is there and is no regular file cannot be written. *)
Lemma writeFileSync_directory (now : Z) (fs : fsys) p data :
  existsSync fs p = true -> regular fs p = None -> writeFileSync now fs p data = None.
Proof.
  unfold existsSync, regular, writeFileSync.
  destruct (fs !! p) as [[]|]; [discriminate|reflexivity|discriminate].
Qed.

(** The [try] block on a target that is not on disk: the directory of the
    target is made if it is missing and the target is written; the
    backup is not attempted, or its copy fails where the write would. *)
Lemma restore_target_missing (now : Z) (fs : fsys) target entry index :
  existsSync fs target = false ->
  exists r fs',
    restore_target now fs target entry index true = (r, fs')
    /\ (forall q, q <> target -> regular fs' q = regular fs q)
    /\ match (if negb (existsSync fs (path_dirname target))
              then mkdirSync now fs (path_dirname target) else Some fs)
             ≫= (fun fs1 => writeFileSync now fs1 target (content entry)) with
       | Some fs2 =>
           r = RestoredWithoutBackup target index (timestamp entry)
           /\ fs' = fs2
           /\ file_data fs' target = Some (content entry)
       | None => r = RestoreFailed
       end.
Proof.
  intros Hmiss. unfold restore_target.
  destruct (if negb (existsSync fs (path_dirname target)) then _ else _)
    as [fs1|] eqn:Hdir; cbn [mbind option_bind]; [|eauto 6].
  destruct (ensure_directory_spec _ _ _ _ Hdir) as [Hreg1 _].
  destruct (existsSync fs1 target) eqn:Hex1; cbn [andb].
  - unfold copyFileSync.
    rewrite (readFileSync_regular fs fs1) by apply Hreg1.
    assert (readFileSync fs target = None) as ->.
    { unfold readFileSync. unfold existsSync in Hmiss. now destruct (fs !! target). }
    rewrite writeFileSync_directory;
      [eauto 6|assumption|rewrite Hreg1; now apply missing_not_regular].
  - destruct (writeFileSync now fs1 target (content entry)) as [fs2|] eqn:Hwrite;
      [|eauto 6].
    destruct (writeFileSync_spec _ _ _ _ _ Hwrite) as (Ht & Hreg2 & _).
    eexists _, _. split; [reflexivity|]. split; [|auto].
    intros q Hq. now rewrite Hreg2, Hreg1.
Qed.

Variable this : VSCodeHistoryParser.

(** What [restoreFromHistory] does once the history and a valid index
    are known. *)
Lemma restoreFromHistory_valid (now : Z) fs filePath index createBackup
  history entry originalPath inputPath :
  findHistoryByFilePath this fs filePath = Returns (Some history) ->
  (0 <= index)%Z -> entries history !! Z.to_nat index = Some entry ->
  uriToPath (originalFilePath history) = Some originalPath ->
  uriToPath filePath = Some inputPath ->
  restoreFromHistory this now fs filePath index createBackup
  = Returns (restore_target now fs
               (if existsSync fs inputPath then inputPath else originalPath)
               entry index createBackup).
Proof.
  intros Hfind Hpos Hentry Horig Hinput. unfold restoreFromHistory.
  rewrite Hfind. apply lookup_lt_Some in Hentry as Hlt.
  destruct (Z.ltb_spec index 0); [lia|].
  destruct (Z.geb_spec index (Z.of_nat (length (entries history)))); [lia|].
  cbn [orb]. now rewrite Hentry, Horig, Hinput.
Qed.
End WriteFacts.

Lemma outcome_parts (o : outcome (response * fsys)) (fs : fsys) r :
  Posix.response_of o = Some r -> o = Returns (r, Posix.state_after o fs).
Proof. destruct o as [[r' fs']|]; cbn; congruence. Qed.


(** The second of these restores finds the backup path taken and creates
    no file; the content the first one saved is lost. *)
Example second_backup_overwrites_first :
  file_data Posix.store (js "/a/b.txt") = Some (js "current")
  /\ file_data Posix.store_restored_once (js "/a/b.txt.backup.1000") = Some (js "current")
  /\ file_data Posix.store_restored_twice (js "/a/b.txt.backup.1000")
     = Some (js "second draft")
  /\ size Posix.store_restored_twice = size Posix.store_restored_once.
Proof. vm_compute. repeat split; reflexivity. Qed.



(** C10, as stated, fails when the directory of the missing target takes
    no new entry: the write throws and the failure result is returned. *)
Lemma missing_target_not_always_written :
  ~ missing_target_is_written Posix.parser 1000 Posix.store_read_only (js "/A/b.txt") 0.
Proof.
  intros Hwritten.
  destruct (Hwritten Posix.single_history
              (Posix.snapshot (js "d1") (js "x1") 100 (js "first draft"))
              (js "/A/b.txt") (js "/A/b.txt")) as (fs' & Hres & _);
    [vm_compute; reflexivity| lia | reflexivity | reflexivity | reflexivity
    | vm_compute; reflexivity |].
  apply (f_equal Posix.response_of) in Hres. vm_compute in Hres. discriminate.
Qed.

Example read_only_directory_fails :
  Posix.response_of
    (restoreFromHistory Posix.parser 1000 Posix.store_read_only (js "/A/b.txt") 0 true)
  = Some RestoreFailed.
Proof. vm_compute. reflexivity. Qed.

(** C10, amended. A call with [createBackup = true], a valid index and a
    target that is not on disk creates no backup: no regular file other
    than the target is created or changed. When [mkdirSync], called if
    the directory of the target is missing, and [writeFileSync] on the
    target do not throw, the target is written with the content of the
    selected entry and the success result says that no backup was
    created; when one of them throws, the failure result is returned. *)
Theorem restore_missing_target `{Host} this now fs filePath index history entry
  originalPath inputPath :
  findHistoryByFilePath this fs filePath = Returns (Some history) ->
  (0 <= index)%Z -> entries history !! Z.to_nat index = Some entry ->
  uriToPath (originalFilePath history) = Some originalPath ->
  uriToPath filePath = Some inputPath ->
  let targetPath := if existsSync fs inputPath then inputPath else originalPath in
  existsSync fs targetPath = false ->
  exists r fs',
    restoreFromHistory this now fs filePath index true = Returns (r, fs')
    /\ (forall q, q <> targetPath -> regular fs' q = regular fs q)
    /\ match (if negb (existsSync fs (path_dirname targetPath))
              then mkdirSync now fs (path_dirname targetPath) else Some fs)
             ≫= (fun fs1 => writeFileSync now fs1 targetPath (content entry)) with
       | Some fs2 =>
           r = RestoredWithoutBackup targetPath index (timestamp entry)
           /\ fs' = fs2
           /\ file_data fs' targetPath = Some (content entry)
           /\ exists before, text_of r = before ++ js "No backup was created"
       | None => r = RestoreFailed
       end.
Proof.
  intros Hfind Hpos Hentry Horig Hinput targetPath Hmiss.
  rewrite (restoreFromHistory_valid this now fs filePath index true
             history entry originalPath inputPath) by assumption.
  fold targetPath.
  destruct (restore_target_missing now fs targetPath entry index Hmiss)
    as (r & fs' & -> & Hothers & Hr).
  exists r, fs'. split; [reflexivity|]. split; [assumption|].
  destruct (_ ≫= _) as [fs2|]; [|assumption].
  destruct Hr as (-> & -> & Hdata).
  split; [reflexivity|]. split; [reflexivity|]. split; [assumption|].
  cbn [text_of].
  change (js "  No backup was created") with (js "  " ++ js "No backup was created").
  rewrite !app_assoc. eexists. reflexivity.
Qed.

Lemma restore_missing_target_witness :
  exists r fs',
    restoreFromHistory Posix.parser 1000 Posix.store (js "/A/b.txt") 0 true
    = Returns (r, fs')
    /\ r = RestoredWithoutBackup (js "/A/b.txt") 0 200
    /\ file_data fs' (js "/A/b.txt") = Some (js "second draft")
    /\ (forall q, q <> js "/A/b.txt" -> regular fs' q = regular Posix.store q).
Proof.
  destruct (restore_missing_target Posix.parser 1000 Posix.store (js "/A/b.txt") 0
              Posix.upper_history
              (Posix.snapshot (js "d1") (js "x2") 200 (js "second draft"))
              (js "/A/b.txt") (js "/A/b.txt"))
    as (r & fs' & Hrun & Hothers & Hcase);
    [vm_compute; reflexivity| lia | reflexivity | reflexivity | reflexivity
    | vm_compute; reflexivity |].
  exists r, fs'. split; [exact Hrun|].
  match type of Hcase with
  | match ?o with _ => _ end => destruct o as [fs2|] eqn:Hcalls
  end.
  - destruct Hcase as (Hr & _ & Hdata & _).
    split; [exact Hr|]. split; [exact Hdata|exact Hothers].
  - apply (f_equal (fun o : option fsys => match o with Some _ => true | None => false end))
      in Hcalls.
    vm_compute in Hcalls. discriminate Hcalls.
Defined.

Example missing_target_restored :
  Posix.response_of
    (restoreFromHistory Posix.parser 1000 Posix.store (js "/A/b.txt") 0 true)
  = Some (RestoredWithoutBackup (js "/A/b.txt") 0 200)
  /\ file_data Posix.store_restored_missing (js "/A/b.txt") = Some (js "second draft")
  /\ existsSync Posix.store_restored_missing (js "/A") = true
  /\ existsSync Posix.store_restored_missing (backup_path (js "/A/b.txt") 1000) = false.
Proof. vm_compute. repeat split; reflexivity. Qed.

(** ** Search *)

Section SearchFacts.
Context `{Host}.
Import RegExp.

(** The characters the term has escaped are the syntax characters. *)
Lemma special_is_syntax c : URI.in_set c regexp_special = is_syntax_character c.
Proof.
  unfold is_syntax_character, URI.in_set.
  change regexp_special with [46; 42; 43; 63; 94; 36; 123; 125; 40; 41; 124; 91; 93; 92]%N.
  change syntax_characters
    with [94; 36; 46; 42; 43; 63; 40; 41; 91; 93; 123; 125; 124; 92]%N.
  cbn [existsb].
  repeat match goal with
         | |- context [N.eqb c ?k] => destruct (N.eqb_spec c k); [subst c; reflexivity|]
         end.
  reflexivity.
Qed.

Lemma atoms_escape_term term :
  atoms (escape_term term) = Some (map Literal term).
Proof.
  induction term as [|c term IH]; [reflexivity|].
  unfold escape_term in *. cbn [flat_map map].
  destruct (URI.in_set c regexp_special) eqn:Hc.
  - cbn [app atoms]. rewrite N.eqb_refl.
    rewrite <- special_is_syntax, Hc, IH. reflexivity.
  - cbn [app atoms]. rewrite <- special_is_syntax, Hc.
    destruct (N.eqb_spec c backslash) as [->|_]; [discriminate Hc|].
    rewrite IH. reflexivity.
Qed.

Lemma literals_map term : literals (map Literal term) = Some term.
Proof.
  induction term as [|c term IH]; [reflexivity|].
  cbn [map literals]. now rewrite IH.
Qed.

(** The escaped term is a pattern of literals: the term itself. *)
Lemma make_escape_term term flag :
  make (escape_term term) flag = Some {| pattern := term; ignoreCase := flag |}.
Proof. unfold make. now rewrite atoms_escape_term, literals_map. Qed.

Lemma matches_here_spec flag p s :
  matches_here flag p s = true <->
  exists mid rest,
    s = mid ++ rest /\ Forall2 (fun a b => same_character flag a b = true) p mid.
Proof.
  revert s. induction p as [|a p IH]; intros s; cbn [matches_here].
  - split; [|reflexivity]. intros _. exists [], s. split; [reflexivity|constructor].
  - destruct s as [|b s].
    + split; [discriminate|].
      intros (mid & rest & Hs & Hall). inversion Hall; subst. discriminate.
    + rewrite andb_true_iff, IH. split.
      * intros (Hab & mid & rest & -> & Hall).
        exists (b :: mid), rest. split; [reflexivity|now constructor].
      * intros (mid & rest & Hs & Hall).
        inversion Hall as [|? b' ? mid' Hab Hall']; subst.
        injection Hs as -> ->. eauto.
Qed.

Lemma match_global_found r : forall s skip,
  match_global r skip s <> [] ->
  exists pre post, s = pre ++ post /\ matches_here (ignoreCase r) (pattern r) post = true.
Proof.
  induction s as [|c s IH]; intros skip; cbn [match_global].
  - destruct skip; [|congruence].
    destruct (matches_here (ignoreCase r) (pattern r) []) eqn:Hm; [|congruence].
    intros _. now exists [], [].
  - destruct skip as [|k].
    + destruct (matches_here (ignoreCase r) (pattern r) (c :: s)) eqn:Hm.
      * intros _. now exists [], (c :: s).
      * intros (pre & post & -> & Hpost)%IH. now exists (c :: pre), post.
    + intros (pre & post & -> & Hpost)%IH. now exists (c :: pre), post.
Qed.

Lemma match_global_finds r : forall s skip pre post,
  s = pre ++ post -> (skip <= length pre)%nat ->
  matches_here (ignoreCase r) (pattern r) post = true ->
  match_global r skip s <> [].
Proof.
  induction s as [|c s IH]; intros skip pre post Hs Hskip Hpost; cbn [match_global].
  - symmetry in Hs. apply app_eq_nil in Hs as [-> ->].
    cbn in Hskip. destruct skip; [|lia]. now rewrite Hpost.
  - destruct skip as [|k].
    + destruct (matches_here (ignoreCase r) (pattern r) (c :: s)) eqn:Hm; [congruence|].
      destruct pre as [|x pre]; cbn in Hs.
      * subst post. congruence.
      * injection Hs as -> ->. apply (IH 0%nat pre post); [reflexivity|lia|assumption].
    + destruct pre as [|x pre]; cbn in Hskip; [lia|].
      cbn in Hs. injection Hs as -> ->.
      apply (IH k pre post); [reflexivity|lia|assumption].
Qed.

(** Every match that is counted is a piece of the text that equals the
    term, character by character. *)
Lemma match_global_occurrences r : forall s skip,
  Forall (fun m => Forall2 (fun a b => same_character (ignoreCase r) a b = true)
                     (pattern r) m)
    (match_global r skip s).
Proof.
  assert (forall s, matches_here (ignoreCase r) (pattern r) s = true ->
                    Forall2 (fun a b => same_character (ignoreCase r) a b = true)
                      (pattern r) (take (length (pattern r)) s)) as Hhere.
  { intros s (mid & rest & -> & Hall)%matches_here_spec.
    rewrite (Forall2_length _ _ _ Hall), take_app_length. exact Hall. }
  induction s as [|c s IH]; intros skip; cbn [match_global].
  - destruct skip; [|constructor].
    destruct (matches_here (ignoreCase r) (pattern r) []) eqn:Hm; [|constructor].
    constructor; [|constructor]. apply Hhere in Hm. now rewrite take_nil in Hm.
  - destruct skip as [|k]; [|apply IH].
    destruct (matches_here (ignoreCase r) (pattern r) (c :: s)) eqn:Hm; [|apply IH].
    constructor; [now apply Hhere|apply IH].
Qed.

(** [text.match(regexp)] is not [null] exactly when the text contains
    the term. *)
Lemma string_match_contains caseSensitive term text :
  match_global {| pattern := term; ignoreCase := negb caseSensitive |} 0 text <> []
  <-> contains caseSensitive term text.
Proof.
  set (r := {| pattern := term; ignoreCase := negb caseSensitive |}).
  assert (contains caseSensitive term text <->
          exists pre post, text = pre ++ post
                           /\ matches_here (negb caseSensitive) term post = true)
    as ->.
  { unfold contains. destruct caseSensitive; cbn [negb].
    - split.
      + intros (pre & post & ->). exists pre, (term ++ post). split; [reflexivity|].
        apply matches_here_spec. exists term, post. split; [reflexivity|].
        clear. induction term; constructor; [apply N.eqb_refl|assumption].
      + intros (pre & post & -> & (mid & rest & -> & Hall)%matches_here_spec).
        exists pre, rest. do 2 f_equal.
        clear -Hall. induction Hall as [|a b p mid Hab _ IH]; [reflexivity|].
        cbn in Hab. apply N.eqb_eq in Hab. congruence.
    - split.
      + intros (pre & mid & post & -> & Hall). exists pre, (mid ++ post).
        split; [reflexivity|]. apply matches_here_spec. exists mid, post.
        split; [reflexivity|].
        eapply Forall2_impl; [exact Hall|]. intros a b Hab. cbn. now apply N.eqb_eq.
      + intros (pre & post & -> & (mid & rest & -> & Hall)%matches_here_spec).
        exists pre, mid, rest. split; [reflexivity|].
        eapply Forall2_impl; [exact Hall|]. intros a b Hab. cbn in Hab.
        now apply N.eqb_eq. }
  split.
  - apply (match_global_found r).
  - intros (pre & post & Hs & Hpost).
    apply (match_global_finds r text 0%nat pre post); [assumption|lia|assumption].
Qed.

Lemma search_entries_elem caseSensitive term history result :
  result ∈ search_entries {| pattern := term; ignoreCase := negb caseSensitive |} history
  <->
  exists index entry,
    entries history !! index = Some entry
    /\ contains caseSensitive term (content entry)
    /\ result = {| file := originalFilePath history;
                   entryIndex := index;
                   timestamp_text := toLocaleString (timestamp entry);
                   matchCount := occurrences caseSensitive term (content entry) |}.
Proof.
  unfold search_entries. rewrite list_elem_of_omap. split.
  - intros (o & (index & entry & -> & Hentry)%elem_of_lookup_imap & Hid).
    cbn in Hid. unfold string_match in Hid.
    exists index, entry. split; [assumption|].
    rewrite <- string_match_contains. unfold occurrences.
    destruct (match_global _ 0 (content entry)) as [|m ms]; [discriminate|].
    injection Hid as <-. split; [discriminate|reflexivity].
  - intros (index & entry & Hentry & Hcontains & ->).
    apply string_match_contains in Hcontains.
    eexists. split.
    + apply elem_of_lookup_imap. exists index, entry. split; [reflexivity|assumption].
    + cbn. unfold string_match, occurrences.
      destruct (match_global _ 0 (content entry)) as [|m ms]; [contradiction|].
      reflexivity.
Qed.

(** *** The matches that are counted *)

Lemma is_occurrence_length caseSensitive term mid :
  is_occurrence caseSensitive term mid -> length mid = length term.
Proof.
  unfold is_occurrence. destruct caseSensitive.
  - now intros ->.
  - intros Hall. symmetry. exact (Forall2_length _ _ _ Hall).
Qed.

Lemma matches_here_occurrence caseSensitive term s :
  matches_here (negb caseSensitive) term s = true
  <-> exists mid rest, s = mid ++ rest /\ is_occurrence caseSensitive term mid.
Proof.
  rewrite matches_here_spec. unfold is_occurrence.
  destruct caseSensitive; cbn [negb]; split.
  - intros (mid & rest & -> & Hall). exists mid, rest. split; [reflexivity|].
    clear -Hall. induction Hall as [|a b p mid Hab _ IH]; [reflexivity|].
    cbn in Hab. apply N.eqb_eq in Hab. congruence.
  - intros (mid & rest & -> & ->). exists term, rest. split; [reflexivity|].
    clear. induction term; constructor; [apply N.eqb_refl|assumption].
  - intros (mid & rest & -> & Hall). exists mid, rest. split; [reflexivity|].
    eapply Forall2_impl; [exact Hall|]. intros a b Hab. cbn in Hab. now apply N.eqb_eq.
  - intros (mid & rest & -> & Hall). exists mid, rest. split; [reflexivity|].
    eapply Forall2_impl; [exact Hall|]. intros a b Hab. cbn. now apply N.eqb_eq.
Qed.

(** The pattern matches at a position exactly when the term occurs
    there. *)
Lemma occurs_at_here caseSensitive term pre s :
  occurs_at caseSensitive term (pre ++ s) (length pre)
  <-> matches_here (negb caseSensitive) term s = true.
Proof.
  rewrite matches_here_occurrence. unfold occurs_at. split.
  - intros (pre' & mid & post & Heq & Hlen & Hocc).
    apply app_inj_1 in Heq as [_ ->]; [|congruence]. eauto.
  - intros (mid & rest & -> & Hocc). exists pre, mid, rest. auto.
Qed.

Lemma occurs_at_bound caseSensitive term text i :
  occurs_at caseSensitive term text i -> (i + length term <= length text)%nat.
Proof.
  intros (pre & mid & post & -> & <- & Hocc).
  rewrite !length_app, (is_occurrence_length _ _ _ Hocc). lia.
Qed.

Lemma occurrence_count_skip caseSensitive term text start n :
  ~ occurs_at caseSensitive term text start ->
  occurrence_count caseSensitive term text (S start) n ->
  occurrence_count caseSensitive term text start n.
Proof.
  intros Hno Hcount. inversion Hcount as [? Hnone|? i m Hle Hocc Hfirst Hrest]; subst.
  - apply count_end. intros i Hi.
    destruct (decide (i = start)) as [->|]; [assumption|apply Hnone; lia].
  - apply count_next with (i := i); [lia|assumption| |assumption].
    intros j Hj. destruct (decide (j = start)) as [->|]; [assumption|apply Hfirst; lia].
Qed.

(** [match_global] finds the occurrences that [occurrence_count]
    counts. *)
Lemma match_global_counts caseSensitive term text : forall s pre skip,
  text = pre ++ s ->
  occurrence_count caseSensitive term text (length pre + skip)
    (length (match_global {| pattern := term; ignoreCase := negb caseSensitive |} skip s)).
Proof.
  induction s as [|c s IH]; intros pre skip Htext;
    cbn [match_global pattern ignoreCase].
  - destruct skip as [|k].
    + destruct (matches_here (negb caseSensitive) term []) eqn:Hm.
      * cbn [length]. apply count_next with (i := length pre); [lia| |lia|].
        -- rewrite Htext. now apply occurs_at_here.
        -- apply count_end. intros i Hi Hocc%occurs_at_bound.
           rewrite Htext, length_app in Hocc. cbn [length] in Hocc. lia.
      * apply count_end. intros i Hi Hocc.
        pose proof (occurs_at_bound _ _ _ _ Hocc) as Hbound.
        rewrite Htext, length_app in Hbound. cbn [length] in Hbound.
        assert (i = length pre) as -> by lia.
        rewrite Htext in Hocc. apply occurs_at_here in Hocc. congruence.
    + apply count_end. intros i Hi Hocc%occurs_at_bound.
      rewrite Htext, length_app in Hocc. cbn [length] in Hocc. lia.
  - assert (text = (pre ++ [c]) ++ s) as Htext' by now rewrite <- app_assoc.
    assert (length (pre ++ [c]) = S (length pre)) as Hlen
        by (rewrite length_app; cbn [length]; lia).
    destruct skip as [|k].
    + destruct (matches_here (negb caseSensitive) term (c :: s)) eqn:Hm.
      * cbn [length]. apply count_next with (i := length pre); [lia| |lia|].
        -- rewrite Htext. now apply occurs_at_here.
        -- replace (length pre + Nat.max 1 (length term))%nat
             with (length (pre ++ [c]) + Nat.pred (length term))%nat by lia.
           now apply IH.
      * apply occurrence_count_skip.
        -- rewrite Nat.add_0_r, Htext, occurs_at_here. congruence.
        -- replace (S (length pre + 0)) with (length (pre ++ [c]) + 0)%nat by lia.
           now apply IH.
    + replace (length pre + S k)%nat with (length (pre ++ [c]) + k)%nat by lia.
      now apply IH.
Qed.

(** The count is determined by the term and the text. *)
Lemma occurrence_count_unique caseSensitive term text start n :
  occurrence_count caseSensitive term text start n ->
  forall m, occurrence_count caseSensitive term text start m -> n = m.
Proof.
  induction 1 as [start Hnone|start i n Hle Hocc Hfirst _ IH];
    intros m Hm; inversion Hm as [? Hnone'|? i' m' Hle' Hocc' Hfirst' Hrest']; subst.
  - reflexivity.
  - destruct (Hnone i' Hle' Hocc').
  - destruct (Hnone' i Hle Hocc).
  - assert (i = i') as <-.
    { destruct (Nat.lt_trichotomy i i') as [Hlt|[Heq|Hgt]]; [|assumption|].
      - destruct (Hfirst' i (conj Hle Hlt) Hocc).
      - destruct (Hfirst i' (conj Hle' Hgt) Hocc'). }
    f_equal. now apply IH.
Qed.

Lemma occurrences_counted caseSensitive term text n :
  occurrence_count caseSensitive term text 0 n <-> n = occurrences caseSensitive term text.
Proof.
  pose proof (match_global_counts caseSensitive term text text [] 0%nat eq_refl) as Hcount.
  split.
  - intros Hn. exact (occurrence_count_unique _ _ _ _ _ Hn _ Hcount).
  - intros ->. exact Hcount.
Qed.
End SearchFacts.

(** C7. [searchHistoryContent] reports an entry exactly when its content
    contains the search term: up to case when [caseSensitive] is false, as
    it is when [caseSensitive] is true. The term is matched as literal
    text, whatever regular-expression characters it holds. Each record
    carries the index of the entry in the entries of its file and the
    count of the occurrences of the term in the content: those met when
    the content is read from its start, each the first that begins where
    the reading has come to, the reading going on behind it. *)
Theorem search_reports_literal_occurrences `{Host} this fs searchTerm caseSensitive :
  RegExp.make (escape_term searchTerm) (negb caseSensitive)
  = Some {| RegExp.pattern := searchTerm; RegExp.ignoreCase := negb caseSensitive |}
  /\ exists results,
      search_results this fs searchTerm caseSensitive = Some results
      /\ searchHistoryContent this fs searchTerm caseSensitive
         = Some (match results with
                 | [] => NoMatchesFound searchTerm
                 | _ => MatchesFound searchTerm results
                 end)
      /\ forall result,
          result ∈ results <->
          exists history index entry,
            history ∈ getAllFileHistories this fs
            /\ entries history !! index = Some entry
            /\ contains caseSensitive searchTerm (content entry)
            /\ file result = originalFilePath history
            /\ entryIndex result = index
            /\ timestamp_text result = toLocaleString (timestamp entry)
            /\ occurrence_count caseSensitive searchTerm (content entry) 0
                 (matchCount result).
Proof.
  split; [apply make_escape_term|].
  unfold searchHistoryContent, search_results. rewrite make_escape_term.
  eexists. split; [reflexivity|]. split.
  - now destruct (flat_map _ _).
  - intros result. rewrite list_elem_of_In, in_flat_map. split.
    + intros (history & Hin & Hres). apply list_elem_of_In in Hin, Hres.
      apply search_entries_elem in Hres as (index & entry & Hentry & Hcontains & ->).
      exists history, index, entry. cbn [file entryIndex timestamp_text matchCount].
      repeat (split; [assumption || reflexivity|]).
      now apply occurrences_counted.
    + intros (history & index & entry & Hin & Hentry & Hcontains
              & Hfile & Hindex & Htime & Hcount).
      exists history. rewrite <- !list_elem_of_In. split; [assumption|].
      apply search_entries_elem. exists index, entry.
      split; [assumption|]. split; [assumption|].
      apply occurrences_counted in Hcount.
      destruct result as [f i t n]. cbn in Hfile, Hindex, Htime, Hcount. now subst.
Qed.

(** Three occurrences of [aa] begin in [aaaa]; the second overlaps the
    first and is not counted. *)
Example overlapping_occurrences_count_once :
  occurrence_count true (js "aa") (js "aaaa") 0 2
  /\ occurs_at true (js "aa") (js "aaaa") 1.
Proof.
  split.
  - apply (occurrences_counted true (js "aa") (js "aaaa") 2). vm_compute. reflexivity.
  - exists (js "a"), (js "aa"), (js "a"). repeat split.
Qed.

(** [foo] without case finds [foo], [Foo] and [FOO]; with case, [foo]
    only. A dot in the term matches a dot only. *)
Example search_foo_caseless :
  search_results Posix.parser Posix.store (js "foo") false
  = Some [ {| file := js "/a/b.txt"; entryIndex := 1;
              timestamp_text := js "300"; matchCount := 3 |} ].
Proof. vm_compute. reflexivity. Qed.

Example search_foo_case_sensitive :
  search_results Posix.parser Posix.store (js "foo") true
  = Some [ {| file := js "/a/b.txt"; entryIndex := 1;
              timestamp_text := js "300"; matchCount := 1 |} ].
Proof. vm_compute. reflexivity. Qed.

Example search_dot_is_literal :
  search_results Posix.parser Posix.store (js "a.b") true
  = Some [ {| file := js "/a/b.txt"; entryIndex := 0;
              timestamp_text := js "400"; matchCount := 1 |} ].
Proof. vm_compute. reflexivity. Qed.

(** * Further properties *)

(** ** URIs *)

Module URIMore.
Import URI URIFacts.
Local Open Scope N_scope.

Lemma startsWith_app pre s : startsWith pre (pre ++ s) = true.
Proof.
induction pre as [|a pre IH]; [reflexivity|].
cbn [app startsWith]. now rewrite N.eqb_refl, IH.
Qed.

Lemma startsWith_length pre s : startsWith pre s = true -> (length pre <= length s)%nat.
Proof.
revert s. induction pre as [|a pre IH]; intros [|b s]; cbn; try lia; try discriminate.
intros [_ Hrest]%andb_true_iff. apply IH in Hrest. lia.
Qed.

Lemma hexdigit_kept v : v < 16 -> unescaped_encodeURI (hexdigit v) = true.
Proof.
intros Hv. unfold unescaped_encodeURI, always_unescaped, is_alpha, is_digit, hexdigit.
destruct (N.ltb_spec v 10).
- replace ((48 <=? 48 + v) && (48 + v <=? 57)) with true; [now rewrite orb_true_r|].
  symmetry. apply andb_true_iff. split; apply N.leb_le; lia.
- replace ((65 <=? 55 + v) && (55 + v <=? 90)) with true; [reflexivity|].
  symmetry. apply andb_true_iff. split; apply N.leb_le; lia.
Qed.

Lemma pct_uri_characters b : b < 256 -> forallb uri_character (pct b) = true.
Proof.
intros Hb. unfold pct, uri_character. cbn [forallb].
rewrite !hexdigit_kept by lia. now rewrite orb_true_r.
Qed.

Lemma pct_all_uri_characters bs :
  Forall (fun b => b < 256) bs -> forallb uri_character (pct_all bs) = true.
Proof.
induction 1 as [|b bs Hb _ IH]; [reflexivity|].
unfold pct_all in *. cbn [map concat]. rewrite forallb_app, IH, pct_uri_characters; auto.
Qed.

Lemma utf8_encode_octets cp : cp < 0x110000 -> Forall (fun b => b < 256) (utf8_encode cp).
Proof.
intros Hcp. unfold utf8_encode. cmp_cases; repeat constructor; lia.
Qed.

(** What [encodeURI] writes is made of the characters it keeps and of
    escapes. *)
Lemma encode_uri_characters n : forall s out,
  (length s <= n)%nat ->
  Forall (fun c => c < 0x10000) s ->
  encode unescaped_encodeURI s = Some out ->
  forallb uri_character out = true.
Proof.
induction n as [|n IH]; intros s out Hn Hunits Henc.
{ destruct s; [|cbn in Hn; lia]. now inversion Henc. }
destruct s as [|c rest]; [now inversion Henc|].
cbn [encode] in Henc. cbn [length] in Hn.
inversion Hunits as [|? ? Hc Hrest]; subst.
destruct (unescaped_encodeURI c) eqn:Hun.
- destruct (encode unescaped_encodeURI rest) as [out'|] eqn:Hout; [|discriminate].
  inversion Henc; subst out. cbn [forallb]. unfold uri_character at 1.
  rewrite Hun. cbn [orb andb]. apply (IH rest); [lia|assumption|assumption].
- destruct (is_lead c) eqn:Hl.
  + destruct rest as [|d rest']; [discriminate|].
    destruct (is_trail d) eqn:Htd; [|discriminate].
    destruct (encode unescaped_encodeURI rest') as [out'|] eqn:Hout; [|discriminate].
    inversion Henc; subst out. rewrite forallb_app.
    destruct (pair_code_point_scalar c d Hl Htd) as [[Hmax _] _].
    rewrite pct_all_uri_characters by now apply utf8_encode_octets.
    inversion Hrest; subst. apply (IH rest'); [cbn in Hn; lia|assumption|assumption].
  + destruct (is_trail c); [discriminate|].
    destruct (encode unescaped_encodeURI rest) as [out'|] eqn:Hout; [|discriminate].
    inversion Henc; subst out. rewrite forallb_app.
    rewrite pct_all_uri_characters by (apply utf8_encode_octets; lia).
    apply (IH rest); [lia|assumption|assumption].
Qed.

Lemma uri_character_ascii c : uri_character c = true -> c < 128 /\ c <> 32.
Proof.
unfold uri_character. intros [Hun|Hp]%orb_true_iff.
- destruct (unescaped_ascii c Hun) as [Hlt _]. split; [assumption|].
  intros ->. vm_compute in Hun. discriminate.
- apply N.eqb_eq in Hp. lia.
Qed.

(** [encodeURI] accepts the well-formed strings only. *)
Lemma encode_Some_well_formed n : forall s out,
  (length s <= n)%nat ->
  Forall (fun c => c < 0x10000) s ->
  encode unescaped_encodeURI s = Some out ->
  well_formed s = true.
Proof.
induction n as [|n IH]; intros s out Hn Hunits Henc.
{ destruct s; [reflexivity|cbn in Hn; lia]. }
destruct s as [|c rest]; [reflexivity|].
cbn [encode] in Henc. cbn [length] in Hn. cbn [well_formed].
inversion Hunits as [|? ? Hc Hrest]; subst.
destruct (N.ltb_spec c 0x10000); [|lia]. cbn [negb].
destruct (unescaped_encodeURI c) eqn:Hun.
- destruct (unescaped_ascii c Hun) as [Hlt _].
  assert (is_lead c = false) as -> by (unfold is_lead; cmp_cases; reflexivity).
  assert (is_trail c = false) as -> by (unfold is_trail; cmp_cases; reflexivity).
  destruct (encode unescaped_encodeURI rest) as [out'|] eqn:Hout; [|discriminate].
  cbn [negb andb]. apply (IH rest out'); [lia|assumption|assumption].
- destruct (is_lead c).
  + destruct rest as [|d rest']; [discriminate|].
    destruct (is_trail d); [|discriminate]. cbn [andb].
    destruct (encode unescaped_encodeURI rest') as [out'|] eqn:Hout; [|discriminate].
    inversion Hrest; subst. apply (IH rest' out'); [cbn in Hn; lia|assumption|assumption].
  + destruct (is_trail c); [discriminate|]. cbn [negb andb].
    destruct (encode unescaped_encodeURI rest) as [out'|] eqn:Hout; [|discriminate].
    apply (IH rest out'); [lia|assumption|assumption].
Qed.

Lemma take_octet_length s b r : take_octet s = Some (b, r) -> length s = (3 + length r)%nat.
Proof.
unfold take_octet. destruct s as [|p [|h [|l rest]]]; try discriminate.
destruct (p =? 37); [|discriminate].
destruct (hexval h), (hexval l); try discriminate.
now intros [= _ <-].
Qed.

Lemma take_continuation_length n : forall s bs r,
  take_continuation n s = Some (bs, r) -> length s = (3 * n + length r)%nat.
Proof.
induction n as [|n IH]; intros s bs r; cbn [take_continuation].
- intros [= _ <-]. lia.
- destruct (take_octet s) as [[b r1]|] eqn:Hoct; [|discriminate].
  destruct (take_continuation n r1) as [[bs' r']|] eqn:Hcont; [|discriminate].
  intros [= _ <-]. apply take_octet_length in Hoct. apply IH in Hcont. lia.
Qed.

Lemma utf16_encode_length cp : (length (utf16_encode cp) <= 2)%nat.
Proof. unfold utf16_encode. destruct (cp <? 0x10000); cbn; lia. Qed.

(** Decoding never lengthens a string. *)
Lemma decode_length fuel : forall s r,
  decode fuel s = Some r -> (length r <= length s)%nat.
Proof.
induction fuel as [|fuel IH]; intros s r.
{ destruct s; cbn; [intros [= <-]; cbn; lia|discriminate]. }
destruct s as [|c rest]; [cbn; intros [= <-]; cbn; lia|].
rewrite decode_cons.
destruct (c =? 37).
- destruct (take_octet (c :: rest)) as [[b r1]|] eqn:Hoct; [|discriminate].
  apply take_octet_length in Hoct.
  destruct (leading_ones b) as [|[|n]].
  + destruct (decode fuel r1) as [r'|] eqn:Hdec; [|discriminate].
    cbn. intros [= <-]. apply IH in Hdec. cbn in *. lia.
  + discriminate.
  + destruct (3 <? S n)%nat; [discriminate|].
    destruct (take_continuation (S n) r1) as [[bs r2]|] eqn:Hcont; [|discriminate].
    apply take_continuation_length in Hcont.
    destruct (utf8_decode (b :: bs)) as [cp|]; [|discriminate].
    destruct (decode fuel r2) as [r'|] eqn:Hdec; [|discriminate].
    cbn. intros [= <-]. apply IH in Hdec.
    pose proof (utf16_encode_length cp). rewrite length_app. cbn in *. lia.
- destruct (decode fuel rest) as [r'|] eqn:Hdec; [|discriminate].
  cbn. intros [= <-]. apply IH in Hdec. cbn. lia.
Qed.

(** A percent sign without two hexadecimal digits after it, the first
    percent sign of the string, stops the decoding. *)
Lemma decode_stray_percent pre rest : forall fuel,
  Forall (fun c => c <> 37) pre ->
  take_octet (37 :: rest) = None ->
  (length pre < fuel)%nat ->
  decode fuel (pre ++ 37 :: rest) = None.
Proof.
induction pre as [|c pre IH]; intros fuel Hpre Hoct Hfuel;
  (destruct fuel as [|fuel]; [cbn in Hfuel; lia|]); cbn [app]; rewrite decode_cons.
- rewrite N.eqb_refl. now rewrite Hoct.
- inversion Hpre as [|? ? Hc Hrest]; subst.
  destruct (N.eqb_spec c 37); [contradiction|].
  rewrite IH; [reflexivity|assumption|assumption|cbn in Hfuel; lia].
Qed.
End URIMore.

(** X1. [pathToUri] leaves its own results unchanged: applied to a URI it
    has returned, it returns that URI. *)
Theorem pathToUri_idempotent p u : pathToUri p = Some u -> pathToUri u = Some u.
Proof.
unfold pathToUri at 1.
destruct (startsWith file_scheme p) eqn:Hp; cbn [negb].
- intros [= <-]. unfold pathToUri. now rewrite Hp.
- destruct (URI.encodeURI p) as [out|]; [|discriminate].
  cbn [fmap option_fmap option_map]. intros Hu.
  assert (u = file_scheme ++ out) as -> by congruence.
  unfold pathToUri. now rewrite URIMore.startsWith_app.
Qed.

Lemma pathToUri_idempotent_witness :
  pathToUri (js "file:///a%20b") = Some (js "file:///a%20b").
Proof.
apply (pathToUri_idempotent (js "/a b")). vm_compute. reflexivity.
Defined.

(** X2. The URI that [pathToUri] makes of a path is plain ASCII: each of
    its code units is a character [encodeURI] keeps or the percent sign of
    an escape, so that it holds no space and nothing beyond U+007F. *)
Theorem pathToUri_ascii p u :
  Forall (fun c => (c < 0x10000)%N) p ->
  startsWith file_scheme p = false ->
  pathToUri p = Some u ->
  Forall (fun c => uri_character c = true /\ (c < 128)%N /\ c <> 32%N) u.
Proof.
intros Hunits Hp. unfold pathToUri. rewrite Hp. cbn [negb].
destruct (URI.encodeURI p) as [out|] eqn:Henc; [|discriminate].
cbn [fmap option_fmap option_map]. intros Hu.
assert (u = file_scheme ++ out) as -> by congruence.
assert (forallb uri_character (file_scheme ++ out) = true) as Hall.
{ rewrite forallb_app. apply andb_true_iff. split; [reflexivity|].
  now apply (URIMore.encode_uri_characters (length p) p). }
apply Forall_forall. intros c Hc. rewrite forallb_forall in Hall.
specialize (Hall c (proj1 (list_elem_of_In _ _) Hc)).
split; [assumption|]. now apply URIMore.uri_character_ascii.
Qed.

Lemma pathToUri_ascii_witness :
  Forall (fun c => uri_character c = true /\ (c < 128)%N /\ c <> 32%N)
    (js "file:///a%20b/%C3%A9").
Proof.
apply (pathToUri_ascii [47; 97; 32; 98; 47; 0xE9]%N).
- repeat constructor.
- reflexivity.
- vm_compute. reflexivity.
Defined.

(** X3. A string that starts with [file://] is returned as it is by
    [pathToUri], and [uriToPath] does not give it back: what it returns,
    if anything, is shorter. *)
Theorem file_uri_is_not_restored p :
  startsWith file_scheme p = true ->
  pathToUri p = Some p
  /\ forall q, uriToPath p = Some q -> (length q + 7 <= length p)%nat.
Proof.
intros Hp. split.
- unfold pathToUri. now rewrite Hp.
- intros q. unfold uriToPath, URI.decodeURIComponent. rewrite Hp.
  intros Hq%URIMore.decode_length.
  apply URIMore.startsWith_length in Hp. change (length file_scheme) with 7%nat in Hp.
  rewrite length_drop in Hq. lia.
Qed.

Lemma file_uri_is_not_restored_witness :
  pathToUri (js "file:///a/b") = Some (js "file:///a/b")
  /\ forall q, uriToPath (js "file:///a/b") = Some q
               -> (length q + 7 <= length (js "file:///a/b"))%nat.
Proof. apply (file_uri_is_not_restored (js "file:///a/b")). reflexivity. Defined.

(** X4. On a path of 16-bit code units that does not start with
    [file://], [pathToUri] throws exactly when the path holds a surrogate
    that is not part of a pair. *)
Theorem pathToUri_throws_iff p :
  Forall (fun c => (c < 0x10000)%N) p ->
  startsWith file_scheme p = false ->
  pathToUri p = None <-> URI.well_formed p = false.
Proof.
intros Hunits Hp. unfold pathToUri, URI.encodeURI. rewrite Hp. cbn [negb].
destruct (URI.well_formed p) eqn:Hwf.
- destruct (URIFacts.encode_well_formed (length p) p) as [out ->]; [lia|assumption|].
  cbn. split; discriminate.
- destruct (URI.encode URI.unescaped_encodeURI p) as [out|] eqn:Henc; [|now cbn].
  apply (URIMore.encode_Some_well_formed (length p)) in Henc; [|lia|assumption].
  congruence.
Qed.

Lemma pathToUri_throws_iff_witness :
  pathToUri [47; 0xD83D; 97]%N = None <-> URI.well_formed [47; 0xD83D; 97]%N = false.
Proof.
apply (pathToUri_throws_iff [47; 0xD83D; 97]%N).
- repeat constructor.
- reflexivity.
Defined.

(** X5. [uriToPath] throws on a [file://] URI in which the first percent
    sign is not followed by two hexadecimal digits. *)
Theorem uriToPath_stray_percent pre rest :
  Forall (fun c => c <> 37%N) pre ->
  URI.take_octet (37%N :: rest) = None ->
  uriToPath (file_scheme ++ pre ++ 37%N :: rest) = None.
Proof.
intros Hpre Hoct. unfold uriToPath.
rewrite URIMore.startsWith_app.
change (drop 7 (file_scheme ++ pre ++ 37%N :: rest)) with (pre ++ 37%N :: rest).
unfold URI.decodeURIComponent.
apply URIMore.decode_stray_percent; [assumption|assumption|].
rewrite length_app. cbn. lia.
Qed.

Lemma uriToPath_stray_percent_witness : uriToPath (js "file:///a/100%.txt") = None.
Proof.
apply (uriToPath_stray_percent (js "/a/100") (js ".txt")).
- vm_compute. repeat constructor; discriminate.
- reflexivity.
Defined.

(** ** The store locator *)

(** X6. [getHistoryDirectory] throws exactly on a platform other than
    [win32], [darwin] and [linux]. Otherwise it returns one of the two
    candidates, the one of Cursor whenever that exists, and the directory
    it returns exists exactly when one of the candidates does. *)
Theorem getHistoryDirectory_choice join proc fs :
  (history_candidates join proc = None
   <-> platform proc <> js "win32" /\ platform proc <> js "darwin"
       /\ platform proc <> js "linux")
  /\ match history_candidates join proc with
     | None => getHistoryDirectory join proc fs = Throws
     | Some (cursorPath, vsCodePath) =>
         exists dir,
           getHistoryDirectory join proc fs = Returns dir
           /\ (dir = cursorPath \/ dir = vsCodePath)
           /\ (existsSync fs cursorPath = true -> dir = cursorPath)
           /\ (existsSync fs dir = true
               <-> existsSync fs cursorPath = true \/ existsSync fs vsCodePath = true)
     end.
Proof.
split.
- unfold history_candidates.
  repeat case_decide; split; try discriminate; try tauto; intros (? & ? & ?); tauto.
- unfold getHistoryDirectory.
  destruct (history_candidates join proc) as [[cursorPath vsCodePath]|]; [|reflexivity].
  destruct (existsSync fs cursorPath) eqn:Hc.
  + exists cursorPath. rewrite Hc. tauto.
  + destruct (existsSync fs vsCodePath) eqn:Hv.
    * exists vsCodePath. rewrite Hv. intuition discriminate.
    * exists cursorPath. rewrite Hc. intuition discriminate.
Qed.

Example linux_falls_back_to_code :
  getHistoryDirectory Linux.join_segments Linux.proc Linux.code_only
  = Returns (js "/home/u/.config/Code/User/History")
  /\ getHistoryDirectory Linux.join_segments Linux.proc ∅
     = Returns (js "/home/u/.config/Cursor/User/History")
  /\ getHistoryDirectory Linux.join_segments
       {| platform := js "freebsd"; homedir := js "/home/u"; APPDATA := None |} ∅
     = Throws.
Proof. vm_compute. repeat split; reflexivity. Qed.

(** ** The reader: what the entries are *)

Section SortFacts.
Context {A : Type} (cmp : A -> A -> Z).
Hypothesis cmp_total : forall x y, ~ (cmp x y <= 0)%Z -> (cmp y x <= 0)%Z.
Hypothesis cmp_trans : forall x y z, (cmp x y <= 0)%Z -> (cmp y z <= 0)%Z -> (cmp x z <= 0)%Z.

Lemma sort_insert_StronglySorted x l :
  StronglySorted (fun a b => (cmp a b <= 0)%Z) l ->
  StronglySorted (fun a b => (cmp a b <= 0)%Z) (sort_insert cmp x l).
Proof.
induction 1 as [|y l Hl IH Hy]; cbn [sort_insert]; [repeat constructor|].
destruct (Z.leb_spec (cmp x y) 0) as [Hle|Hgt].
- constructor; [now constructor|]. constructor; [assumption|].
  eapply Forall_impl; [exact Hy|]. intros z Hz. cbn in Hz. eauto.
- constructor; [assumption|].
  rewrite sort_insert_Permutation. constructor; [apply cmp_total; lia|assumption].
Qed.

Lemma js_sort_StronglySorted l :
  StronglySorted (fun a b => (cmp a b <= 0)%Z) (js_sort cmp l).
Proof.
induction l as [|x l IH]; cbn [js_sort foldr]; [constructor|].
now apply sort_insert_StronglySorted.
Qed.
End SortFacts.

Lemma StronglySorted_lookup {A} (R : A -> A -> Prop) (l : list A) :
  StronglySorted R l ->
  forall (i j : nat) a b, (i < j)%nat -> l !! i = Some a -> l !! j = Some b -> R a b.
Proof.
induction 1 as [|x l Hl IH Hx]; intros i j a b Hij Ha Hb; [discriminate|].
destruct j as [|j]; [lia|]. change ((x :: l) !! S j) with (l !! j) in Hb.
destruct i as [|i].
- cbn in Ha. injection Ha as <-. rewrite Forall_forall in Hx.
  apply Hx. eapply list_elem_of_lookup_2. exact Hb.
- change ((x :: l) !! S i) with (l !! i) in Ha. apply (IH i j); [lia|assumption..].
Qed.

Lemma compare_strings_total a : forall b,
  ~ (compare_strings a b <= 0)%Z -> (compare_strings b a <= 0)%Z.
Proof.
induction a as [|x a IH]; intros [|y b]; cbn [compare_strings]; try lia.
destruct (N.ltb_spec x y), (N.ltb_spec y x); try lia. apply IH.
Qed.

Lemma compare_strings_trans a : forall b c,
  (compare_strings a b <= 0)%Z -> (compare_strings b c <= 0)%Z ->
  (compare_strings a c <= 0)%Z.
Proof.
induction a as [|x a IH]; intros [|y b] [|z c]; cbn [compare_strings]; try lia.
destruct (N.ltb_spec x y), (N.ltb_spec y x), (N.ltb_spec y z), (N.ltb_spec z y),
  (N.ltb_spec x z), (N.ltb_spec z x); try lia.
apply IH.
Qed.

Lemma sorted_names_StronglySorted names :
  StronglySorted name_le (js_sort compare_strings names).
Proof.
apply (js_sort_StronglySorted compare_strings);
  [apply compare_strings_total|apply compare_strings_trans].
Qed.

Lemma sort_insert_recency x l :
  StronglySorted recency_then_name l ->
  Forall (fun y => name_le (relativePath x) (relativePath y)) l ->
  StronglySorted recency_then_name (sort_insert most_recent_first x l).
Proof.
induction 1 as [|y l Hl IH Hy]; intros Hx; cbn [sort_insert]; [repeat constructor|].
inversion Hx as [|? ? Hxy Hxl]; subst.
unfold most_recent_first at 1.
destruct (Z.leb_spec (timestamp y - timestamp x) 0) as [Hle|Hgt].
- constructor; [now constructor|]. constructor.
  + unfold recency_then_name. destruct (Z.eq_dec (timestamp x) (timestamp y)); [auto|lia].
  + rewrite Forall_forall in Hy, Hxl |- *. intros z Hz.
    specialize (Hy z Hz). specialize (Hxl z Hz). unfold recency_then_name in *.
    destruct (Z.eq_dec (timestamp x) (timestamp z)); [auto|lia].
- constructor; [now apply IH|].
  rewrite sort_insert_Permutation. constructor; [|assumption].
  unfold recency_then_name. lia.
Qed.

Lemma js_sort_recency es :
  StronglySorted (fun a b => name_le (relativePath a) (relativePath b)) es ->
  StronglySorted recency_then_name (js_sort most_recent_first es).
Proof.
induction 1 as [|x es Hes IH Hx]; cbn [js_sort foldr]; [constructor|].
apply sort_insert_recency; [assumption|].
change (foldr (sort_insert most_recent_first) [] es) with (js_sort most_recent_first es).
now rewrite js_sort_Permutation.
Qed.

Section EntryFacts.
Context `{Host}.
Variable this : VSCodeHistoryParser.

Lemma read_entries_stats fs dirPath files es :
  read_entries fs dirPath files = Some es ->
  Forall (fun file => statSync fs (path_join dirPath file) <> None) files.
Proof.
revert es. induction files as [|file files IH]; intros es; [constructor|].
cbn [read_entries].
destruct (statSync fs (path_join dirPath file)) eqn:Hstat; [|discriminate].
intros Hes. constructor; [congruence|].
destruct (readFileSync fs (path_join dirPath file)); [|eauto].
destruct (read_entries fs dirPath files); [eauto|discriminate].
Qed.

Lemma read_entries_length fs dirPath files es :
  read_entries fs dirPath files = Some es ->
  length es
  = length (filter (fun file => can_read fs (path_join dirPath file) = true) files).
Proof.
revert es. induction files as [|file files IH]; intros es; cbn [read_entries].
- now intros [= <-].
- destruct (statSync fs (path_join dirPath file)); [|discriminate].
  destruct (readFileSync fs (path_join dirPath file)) eqn:Hread.
  + destruct (read_entries fs dirPath files) as [es'|]; [|discriminate].
    cbn [fmap option_fmap option_map]. intros [= <-].
    rewrite filter_cons_True by (unfold can_read; now rewrite Hread).
    cbn [length]. now rewrite (IH es').
  + intros Hes.
    rewrite filter_cons_False by (unfold can_read; rewrite Hread; discriminate).
    now apply IH.
Qed.

Lemma read_entries_name_order fs dirPath files es :
  StronglySorted name_le files ->
  read_entries fs dirPath files = Some es ->
  StronglySorted (fun a b => name_le (relativePath a) (relativePath b)) es.
Proof.
intros Hsorted. revert es.
induction Hsorted as [|file files Hfiles IH Hfile]; intros es; cbn [read_entries].
- intros [= <-]. constructor.
- destruct (statSync fs (path_join dirPath file)); [|discriminate].
  destruct (readFileSync fs (path_join dirPath file)); [|apply IH].
  destruct (read_entries fs dirPath files) as [es'|] eqn:Hes; [|discriminate].
  cbn. intros [= <-]. constructor; [now apply IH|].
  apply Forall_forall. intros e He. cbn [relativePath].
  apply (read_entries_elem fs dirPath files es' e Hes) in He as (f & Hf & _ & _ & _ & ->).
  rewrite Forall_forall in Hfile. now apply Hfile.
Qed.

Lemma getFileHistory_order fs hashDir h :
  getFileHistory this fs hashDir = Some h -> StronglySorted recency_then_name (entries h).
Proof.
intros (r & dirents & es & _ & _ & _ & _ & Hes & ->)%getFileHistory_Some.
cbn [entries]. apply js_sort_recency.
eapply read_entries_name_order; [|exact Hes]. apply sorted_names_StronglySorted.
Qed.
End EntryFacts.

(** X7. When the store root does not exist or cannot be listed, there is
    no history at all: no directory, no FileHistory, totals of zero, and
    every lookup of a decodable path returns [null]. *)
Theorem absent_root_means_no_history `{Host} this fs :
  existsSync fs (historyDir this) = false \/ readdirSync fs (historyDir this) = None ->
  getHistoryDirectories this fs = []
  /\ getAllFileHistories this fs = []
  /\ totalFiles (getHistoryStats this fs) = 0%nat
  /\ totalEntries (getHistoryStats this fs) = 0%nat
  /\ forall target t, uriToPath target = Some t ->
                      findHistoryByFilePath this fs target = Returns None.
Proof.
intros Hroot.
assert (getHistoryDirectories this fs = []) as Hdirs.
{ unfold getHistoryDirectories, historyDirectoryExists.
  destruct Hroot as [->| ->]; [reflexivity|]. now destruct (existsSync _ _). }
assert (getAllFileHistories this fs = []) as Hall.
{ unfold getAllFileHistories. now rewrite Hdirs. }
split; [assumption|]. split; [assumption|].
unfold getHistoryStats, findHistoryByFilePath. rewrite Hall. cbn.
repeat split. intros target t ->. reflexivity.
Qed.

Lemma absent_root_means_no_history_witness :
  getHistoryDirectories Posix.parser ∅ = []
  /\ getAllFileHistories Posix.parser ∅ = []
  /\ totalFiles (getHistoryStats Posix.parser ∅) = 0%nat
  /\ totalEntries (getHistoryStats Posix.parser ∅) = 0%nat
  /\ forall target t, uriToPath target = Some t ->
                      findHistoryByFilePath Posix.parser ∅ target = Returns None.
Proof. apply (absent_root_means_no_history Posix.parser ∅). left. reflexivity. Defined.

(** X8. Every entry of a FileHistory that [getFileHistory] returns is a
    snapshot the directory lists under a name other than [entries.json]:
    its [filePath] is that name joined to the directory, its timestamp is
    what [statSync] reads there and its content what [readFileSync]
    reads. *)
Theorem entries_are_listed_snapshots `{Host} this fs hashDir h e :
  getFileHistory this fs hashDir = Some h -> e ∈ entries h ->
  exists dirents,
    readdirSync fs (path_join (historyDir this) hashDir) = Some dirents
    /\ relativePath e ∈ map d_name dirents
    /\ relativePath e <> entries_json
    /\ filePath e = path_join (path_join (historyDir this) hashDir) (relativePath e)
    /\ statSync fs (filePath e) = Some (timestamp e)
    /\ readFileSync fs (filePath e) = Some (content e).
Proof.
intros (r & dirents & es & _ & _ & _ & Hdir & Hes & ->)%getFileHistory_Some He.
cbn [entries] in He. rewrite js_sort_Permutation in He.
apply (read_entries_elem fs _ _ es e Hes) in He as (f & Hf & Hstat & Hread & Hpath & Hname).
rewrite js_sort_Permutation in Hf. unfold snapshot_names in Hf.
apply list_elem_of_filter in Hf as [Hne Hin].
exists dirents. rewrite Hname, Hpath. auto 7.
Qed.

Lemma entries_are_listed_snapshots_witness :
  exists dirents,
    readdirSync Posix.store (path_join (historyDir Posix.parser) (js "d1")) = Some dirents
    /\ relativePath (Posix.snapshot (js "d1") (js "x2") 200 (js "second draft"))
       ∈ map d_name dirents
    /\ relativePath (Posix.snapshot (js "d1") (js "x2") 200 (js "second draft"))
       <> entries_json
    /\ filePath (Posix.snapshot (js "d1") (js "x2") 200 (js "second draft"))
       = path_join (path_join (historyDir Posix.parser) (js "d1"))
           (relativePath (Posix.snapshot (js "d1") (js "x2") 200 (js "second draft")))
    /\ statSync Posix.store
         (filePath (Posix.snapshot (js "d1") (js "x2") 200 (js "second draft")))
       = Some (timestamp (Posix.snapshot (js "d1") (js "x2") 200 (js "second draft")))
    /\ readFileSync Posix.store
         (filePath (Posix.snapshot (js "d1") (js "x2") 200 (js "second draft")))
       = Some (content (Posix.snapshot (js "d1") (js "x2") 200 (js "second draft"))).
Proof.
apply (entries_are_listed_snapshots Posix.parser Posix.store (js "d1") Posix.upper_history
         (Posix.snapshot (js "d1") (js "x2") 200 (js "second draft"))).
- vm_compute. reflexivity.
- apply elem_of_cons. now left.
Defined.

(** X9. No readable snapshot is lost: a FileHistory has as many entries as
    its directory lists names, other than [entries.json], whose file can
    be read, and each such name is the [relativePath] of an entry with the
    content of that file. *)
Theorem readable_snapshots_are_entries `{Host} this fs hashDir h dirents :
  getFileHistory this fs hashDir = Some h ->
  readdirSync fs (path_join (historyDir this) hashDir) = Some dirents ->
  length (entries h)
  = length (filter (fun file =>
                      can_read fs (path_join (path_join (historyDir this) hashDir) file)
                      = true)
              (snapshot_names dirents))
  /\ forall file data,
      file ∈ snapshot_names dirents ->
      readFileSync fs (path_join (path_join (historyDir this) hashDir) file) = Some data ->
      exists e, e ∈ entries h /\ relativePath e = file /\ content e = data.
Proof.
intros (r & dirents' & es & _ & _ & _ & Hdir & Hes & ->)%getFileHistory_Some Hdir'.
rewrite Hdir in Hdir'. injection Hdir' as ->. cbn [entries]. split.
- rewrite js_sort_Permutation, (read_entries_length _ _ _ _ Hes).
  now rewrite js_sort_Permutation.
- intros file data Hin Hread.
  pose proof (read_entries_stats _ _ _ _ Hes) as Hstats.
  rewrite Forall_forall in Hstats.
  assert (file ∈ js_sort compare_strings (snapshot_names dirents)) as Hin'
    by now rewrite js_sort_Permutation.
  specialize (Hstats file Hin').
  destruct (statSync fs (path_join (path_join (historyDir this) hashDir) file))
    as [m|] eqn:Hstat; [|contradiction].
  exists {| timestamp := m; content := data;
            filePath := path_join (path_join (historyDir this) hashDir) file;
            relativePath := file |}.
  split; [|split; reflexivity].
  rewrite js_sort_Permutation. apply (read_entries_elem fs _ _ es _ Hes).
  exists file. cbn. auto.
Qed.

Lemma readable_snapshots_are_entries_witness :
  length (entries Posix.upper_history)
  = length (filter (fun file =>
                      can_read Posix.store
                        (path_join (path_join (historyDir Posix.parser) (js "d1")) file)
                      = true)
              (snapshot_names
                 [ {| d_name := js "entries.json"; d_isDirectory := false |};
                   {| d_name := js "x1"; d_isDirectory := false |};
                   {| d_name := js "x2"; d_isDirectory := false |} ]))
  /\ forall file data,
      file ∈ snapshot_names
               [ {| d_name := js "entries.json"; d_isDirectory := false |};
                 {| d_name := js "x1"; d_isDirectory := false |};
                 {| d_name := js "x2"; d_isDirectory := false |} ] ->
      readFileSync Posix.store
        (path_join (path_join (historyDir Posix.parser) (js "d1")) file) = Some data ->
      exists e, e ∈ entries Posix.upper_history /\ relativePath e = file /\ content e = data.
Proof.
apply (readable_snapshots_are_entries Posix.parser Posix.store (js "d1") Posix.upper_history
         [ {| d_name := js "entries.json"; d_isDirectory := false |};
           {| d_name := js "x1"; d_isDirectory := false |};
           {| d_name := js "x2"; d_isDirectory := false |} ]);
  vm_compute; reflexivity.
Defined.

(** X10. The first entry of a FileHistory is the most recent snapshot: no
    entry has a later timestamp than [entries[0]]. *)
Theorem first_entry_is_newest `{Host} this fs hashDir h e0 e :
  getFileHistory this fs hashDir = Some h ->
  entries h !! 0%nat = Some e0 -> e ∈ entries h ->
  (timestamp e <= timestamp e0)%Z.
Proof.
intros Hh%getFileHistory_order H0 [j Hj]%list_elem_of_lookup_1.
destruct j as [|j]; [rewrite H0 in Hj; injection Hj as <-; lia|].
pose proof (StronglySorted_lookup _ _ Hh 0%nat (S j) e0 e ltac:(lia) H0 Hj) as Hr.
unfold recency_then_name in Hr. lia.
Qed.

Lemma first_entry_is_newest_witness : (100 <= 200)%Z.
Proof.
assert (getFileHistory Posix.parser Posix.store (js "d1") = Some Posix.upper_history)
  as Hget by (vm_compute; reflexivity).
apply (first_entry_is_newest Posix.parser Posix.store (js "d1") Posix.upper_history
         (Posix.snapshot (js "d1") (js "x2") 200 (js "second draft"))
         (Posix.snapshot (js "d1") (js "x1") 100 (js "first draft")) Hget).
- reflexivity.
- apply elem_of_cons. right. apply elem_of_cons. now left.
Defined.

(** X11. The order of the entries is fixed also among snapshots of one
    timestamp: of two entries, the earlier in the sequence is the more
    recent, or they have the same timestamp and the name of the earlier
    comes first (or is the same) in the code-unit order of [sort()]. *)
Theorem equal_timestamps_in_name_order `{Host} this fs hashDir h (i j : nat) a b :
  getFileHistory this fs hashDir = Some h ->
  (i < j)%nat -> entries h !! i = Some a -> entries h !! j = Some b ->
  recency_then_name a b.
Proof.
intros Hh%getFileHistory_order Hij Ha Hb.
exact (StronglySorted_lookup _ _ Hh i j a b Hij Ha Hb).
Qed.

Lemma equal_timestamps_in_name_order_witness :
  recency_then_name (Posix.snapshot (js "d1") (js "aa") 200 (js "late, first name"))
    (Posix.snapshot (js "d1") (js "zz") 200 (js "late, last name")).
Proof.
assert (getFileHistory Posix.parser Linux.store_ties (js "d1") = Some Linux.ties_history)
  as Hget by (vm_compute; reflexivity).
apply (equal_timestamps_in_name_order Posix.parser Linux.store_ties (js "d1")
         Linux.ties_history 0 1 _ _ Hget); [lia|reflexivity|reflexivity].
Defined.

(** ** Lookup by path: the three outcomes *)

Section LookupCases.
Context `{Host}.

(** The loop ends on the first history that is not [no_match]: with that
    history when it matches, with an error when its path cannot be
    decoded. *)
Lemma find_history_cases t histories :
  (find_history (path_resolve t) histories = Returns None
   /\ Forall (no_match t) histories)
  \/ exists pre h post,
      histories = pre ++ h :: post /\ Forall (no_match t) pre
      /\ ((caseless_match t h
           /\ find_history (path_resolve t) histories = Returns (Some h))
          \/ (uriToPath (originalFilePath h) = None
              /\ find_history (path_resolve t) histories = Throws)).
Proof.
induction histories as [|h histories IH]; [left; split; [reflexivity|constructor]|].
cbn [find_history].
destruct (uriToPath (originalFilePath h)) as [p|] eqn:Hp.
- destruct (decide (path_resolve t = path_resolve p)) as [Heq|Hne].
  + right. exists [], h, histories. split; [reflexivity|]. split; [constructor|].
    left. split; [|reflexivity]. exists p. split; [assumption|]. now rewrite Heq.
  + destruct (decide (toLowerCase (path_resolve t) = toLowerCase (path_resolve p)))
      as [Heq'|Hne'].
    * right. exists [], h, histories. split; [reflexivity|]. split; [constructor|].
      left. split; [|reflexivity]. exists p. split; [assumption|]. now rewrite Heq'.
    * assert (no_match t h) as Hno by (exists p; split; [assumption|congruence]).
      destruct IH as [[Hnone Hall]|(pre & h' & post & -> & Hpre & Hcase)].
      -- left. split; [assumption|now constructor].
      -- right. exists (h :: pre), h', post. split; [reflexivity|].
         split; [now constructor|assumption].
- right. exists [], h, histories. split; [reflexivity|]. split; [constructor|].
  right. split; [assumption|reflexivity].
Qed.

Lemma no_match_excludes t h :
  no_match t h -> ~ caseless_match t h /\ uriToPath (originalFilePath h) <> None.
Proof.
intros (p & Hp & Hne). split; [|congruence].
intros (p' & Hp' & Heq). congruence.
Qed.

Lemma no_match_before_not_all t pre h post :
  Forall (no_match t) (pre ++ h :: post) ->
  ~ caseless_match t h /\ uriToPath (originalFilePath h) <> None.
Proof.
intros Hall. apply no_match_excludes. rewrite Forall_forall in Hall.
apply Hall. apply elem_of_app. right. apply elem_of_cons. now left.
Qed.
End LookupCases.

(** X12. A FileHistory that [findHistoryByFilePath] returns is one of
    [getAllFileHistories()], its normalized original path equals the
    normalized target at least up to case, and no history before it in
    iteration order does. *)
Theorem lookup_result_matches `{Host} this fs targetFilePath h :
  findHistoryByFilePath this fs targetFilePath = Returns (Some h) ->
  exists t pre post,
    uriToPath targetFilePath = Some t
    /\ getAllFileHistories this fs = pre ++ h :: post
    /\ Forall (no_match t) pre
    /\ caseless_match t h.
Proof.
unfold findHistoryByFilePath.
destruct (uriToPath targetFilePath) as [t|]; [|discriminate].
intros Hfind. exists t.
destruct (find_history_cases t (getAllFileHistories this fs))
  as [[Hnone _]|(pre & h' & post & Hall & Hpre & [[Hm Hr]|[_ Hr]])]; try congruence.
rewrite Hr in Hfind. injection Hfind as <-. exists pre, post. auto.
Qed.

Lemma lookup_result_matches_witness :
  exists t pre post,
    uriToPath (js "/a/b.txt") = Some t
    /\ getAllFileHistories Posix.parser Posix.store = pre ++ Posix.upper_history :: post
    /\ Forall (no_match t) pre
    /\ caseless_match t Posix.upper_history.
Proof.
apply (lookup_result_matches Posix.parser Posix.store (js "/a/b.txt") Posix.upper_history).
vm_compute. reflexivity.
Defined.

(** X13. For a target that can be decoded, [findHistoryByFilePath]
    returns [null] exactly when the original path of every history can be
    decoded and none equals the target, not even up to case. *)
Theorem lookup_null_iff `{Host} this fs targetFilePath t :
  uriToPath targetFilePath = Some t ->
  findHistoryByFilePath this fs targetFilePath = Returns None
  <-> Forall (no_match t) (getAllFileHistories this fs).
Proof.
intros Ht. unfold findHistoryByFilePath. rewrite Ht.
destruct (find_history_cases t (getAllFileHistories this fs))
  as [[Hnone Hall]|(pre & h & post & Heq & Hpre & Hcase)].
- now rewrite Hnone.
- split.
  + destruct Hcase as [[_ Hr]|[_ Hr]]; rewrite Hr; discriminate.
  + intros Hall. rewrite Heq in Hall.
    apply no_match_before_not_all in Hall as [Hno Hdec].
    destruct Hcase as [[Hm _]|[Hnone _]]; contradiction.
Qed.

Lemma lookup_null_iff_witness :
  findHistoryByFilePath Posix.parser Posix.store (js "/non/existent/file.txt")
  = Returns None
  <-> Forall (no_match (js "/non/existent/file.txt"))
        (getAllFileHistories Posix.parser Posix.store).
Proof.
apply (lookup_null_iff Posix.parser Posix.store (js "/non/existent/file.txt")).
reflexivity.
Defined.

(** X14. [findHistoryByFilePath] throws exactly when the target cannot be
    decoded, or when the scan reaches, before any match, a history whose
    original path cannot be decoded; a match that comes later in the
    iteration order does not prevent it. *)
Theorem lookup_throws_iff `{Host} this fs targetFilePath :
  findHistoryByFilePath this fs targetFilePath = Throws
  <-> uriToPath targetFilePath = None
      \/ exists t pre h post,
          uriToPath targetFilePath = Some t
          /\ getAllFileHistories this fs = pre ++ h :: post
          /\ Forall (no_match t) pre
          /\ uriToPath (originalFilePath h) = None.
Proof.
unfold findHistoryByFilePath.
destruct (uriToPath targetFilePath) as [t|] eqn:Ht; [|split; auto].
split.
- intros Hfind. right. exists t.
  destruct (find_history_cases t (getAllFileHistories this fs))
    as [[Hnone _]|(pre & h & post & Hall & Hpre & [[_ Hr]|[Hbad _]])]; try congruence.
  exists pre, h, post. auto.
- intros [Hc|(t' & pre & h & post & [= <-] & Heq & Hpre & Hbad)]; [discriminate|].
  rewrite Heq. clear Heq.
  induction Hpre as [|h' pre (p' & Hp' & Hne) _ IH]; cbn [app find_history].
  + now rewrite Hbad.
  + rewrite Hp'.
    rewrite decide_False by (intros Heq; apply Hne; now rewrite Heq).
    rewrite decide_False by congruence. exact IH.
Qed.

Example undecodable_history_hides_later_match :
  getAllFileHistories Posix.parser Linux.store_bad_uri
  = [Linux.bad_uri_history; Linux.sound_history]
  /\ findHistoryByFilePath Posix.parser Linux.store_bad_uri (js "/a/b.txt") = Throws.
Proof. vm_compute. split; reflexivity. Qed.

(** X15. A path of safe characters and the URI [pathToUri] makes of it
    find the same history. *)
Theorem lookup_by_uri_or_path `{Host} this fs p u :
  safe_path p = true -> pathToUri p = Some u ->
  findHistoryByFilePath this fs u = findHistoryByFilePath this fs p.
Proof.
intros Hsafe Hu.
assert (uriToPath u = Some p) as Hback.
{ pose proof (roundtrip_well_formed p) as Hrt. rewrite Hu in Hrt. cbn in Hrt.
  apply Hrt; [|now apply safe_path_not_uri].
  unfold safe_path in Hsafe. now apply andb_true_iff in Hsafe as [? _]. }
unfold findHistoryByFilePath. rewrite Hback.
unfold uriToPath. now rewrite (safe_path_not_uri p Hsafe).
Qed.

Lemma lookup_by_uri_or_path_witness :
  findHistoryByFilePath Posix.parser Posix.store (js "file:///x/notes.md")
  = findHistoryByFilePath Posix.parser Posix.store (js "/x/notes.md").
Proof.
apply (lookup_by_uri_or_path Posix.parser Posix.store (js "/x/notes.md")).
- vm_compute. reflexivity.
- vm_compute. reflexivity.
Defined.

(** ** Restore: what a call can touch *)

Section RestoreFrame.
Context `{Host}.

Lemma writeFileSync_frame (now : Z) (fs : fsys) p data :
  match writeFileSync now fs p data with
  | Some fs' =>
      file_data fs' p = Some data
      /\ (forall q, q <> p -> regular fs' q = regular fs q)
      /\ (forall q, existsSync fs q = true -> existsSync fs' q = true)
  | None => True
  end.
Proof.
destruct (writeFileSync now fs p data) as [fs'|] eqn:Hw; [|exact I].
exact (writeFileSync_spec now fs p data fs' Hw).
Qed.

(** The [try] block changes no regular file but the target and, when a
    backup is asked for, the backup path; it removes nothing. *)
Lemma restore_target_frame (now : Z) (fs : fsys) target entry index createBackup r fs' :
  restore_target now fs target entry index createBackup = (r, fs') ->
  (forall q, q <> target -> q <> backup_path target now -> regular fs' q = regular fs q)
  /\ (createBackup = false -> forall q, q <> target -> regular fs' q = regular fs q)
  /\ (forall q, existsSync fs q = true -> existsSync fs' q = true).
Proof.
unfold restore_target.
destruct (if negb (existsSync fs (path_dirname target)) then _ else _)
  as [fs1|] eqn:Hdir; [|intros [= <- <-]; auto].
destruct (ensure_directory_spec _ _ _ _ Hdir) as [Hreg1 Hex1].
destruct (createBackup && existsSync fs1 target) eqn:Hbranch.
- apply andb_true_iff in Hbranch as [-> _]. unfold copyFileSync.
  destruct (readFileSync fs1 target) as [old|]; [|intros [= <- <-]; split; [|split]; auto;
    discriminate].
  pose proof (writeFileSync_frame now fs1 (backup_path target now) old) as Hcopy.
  destruct (writeFileSync now fs1 (backup_path target now) old) as [fs2|];
    [|intros [= <- <-]; split; [|split]; auto; discriminate].
  destruct Hcopy as (_ & Hreg2 & Hex2).
  pose proof (writeFileSync_frame now fs2 target (content entry)) as Hwrite.
  destruct (writeFileSync now fs2 target (content entry)) as [fs3|]; intros [= <- <-].
  + destruct Hwrite as (_ & Hreg3 & Hex3). split; [|split]; [|discriminate|auto].
    intros q Hq Hqb. now rewrite Hreg3, Hreg2, Hreg1.
  + split; [|split]; [|discriminate|auto].
    intros q Hq Hqb. now rewrite Hreg2, Hreg1.
- pose proof (writeFileSync_frame now fs1 target (content entry)) as Hwrite.
  destruct (writeFileSync now fs1 target (content entry)) as [fs2|]; intros [= <- <-].
  + destruct Hwrite as (_ & Hreg2 & Hex2).
    assert (forall q, q <> target -> regular fs2 q = regular fs q) as Hframe
      by (intros q Hq; now rewrite Hreg2, Hreg1).
    split; [|split]; auto.
  + split; [|split]; auto.
Qed.

(** A restore that does not fail has written the content of the entry to
    the target. *)
Lemma restore_target_success (now : Z) (fs : fsys) target entry index createBackup r fs' :
  restore_target now fs target entry index createBackup = (r, fs') ->
  r <> RestoreFailed ->
  file_data fs' target = Some (content entry)
  /\ (r = RestoredWithBackup target index (backup_path target now) (timestamp entry)
      \/ r = RestoredWithoutBackup target index (timestamp entry)).
Proof.
unfold restore_target.
destruct (if negb (existsSync fs (path_dirname target)) then _ else _)
  as [fs1|]; [|intros [= <- <-] []; reflexivity].
destruct (createBackup && existsSync fs1 target).
- destruct (copyFileSync now fs1 target (backup_path target now)) as [fs2|];
    [|intros [= <- <-] []; reflexivity].
  pose proof (writeFileSync_frame now fs2 target (content entry)) as Hwrite.
  destruct (writeFileSync now fs2 target (content entry)) as [fs3|];
    intros [= <- <-] Hok; [|now destruct Hok].
  destruct Hwrite as (Hdata & _). auto.
- pose proof (writeFileSync_frame now fs1 target (content entry)) as Hwrite.
  destruct (writeFileSync now fs1 target (content entry)) as [fs2|];
    intros [= <- <-] Hok; [|now destruct Hok].
  destruct Hwrite as (Hdata & _). auto.
Qed.

(** Without the flag there is no backup branch. *)
Lemma restore_target_plain (now : Z) (fs : fsys) target entry index r fs' :
  restore_target now fs target entry index false = (r, fs') ->
  r = RestoreFailed \/ r = RestoredWithoutBackup target index (timestamp entry).
Proof.
unfold restore_target.
destruct (if negb (existsSync fs (path_dirname target)) then _ else _)
  as [fs1|]; [|intros [= <- <-]; auto].
cbn [andb].
destruct (writeFileSync now fs1 target (content entry)); intros [= <- <-]; auto.
Qed.

Variable this : VSCodeHistoryParser.

(** A lookup that finds a history has decoded the target and the path of
    that history. *)
Lemma lookup_Some_decodes fs filePath history :
  findHistoryByFilePath this fs filePath = Returns (Some history) ->
  exists inputPath originalPath,
    uriToPath filePath = Some inputPath
    /\ uriToPath (originalFilePath history) = Some originalPath
    /\ history ∈ getAllFileHistories this fs.
Proof.
unfold findHistoryByFilePath.
destruct (uriToPath filePath) as [t|]; [|discriminate].
intros Hfind.
destruct (find_history_cases t (getAllFileHistories this fs))
  as [[Hnone _]|(pre & h' & post & Hall & Hpre & [[Hm Hr]|[_ Hr]])]; try congruence.
rewrite Hr in Hfind. injection Hfind as <-.
destruct Hm as (p & Hp & _). exists t, p. split; [reflexivity|]. split; [assumption|].
rewrite Hall. apply elem_of_app. right. apply elem_of_cons. now left.
Qed.
End RestoreFrame.

(** X16. Whatever its arguments, a call of [restoreFromHistory] that
    returns changes or creates no regular file other than its target (the
    decoded input path, or the decoded original path of a stored history)
    and the backup path of that target, and removes nothing. *)
Theorem restore_touches_target_and_backup_only `{Host} this now fs filePath index
  createBackup r fs' :
  restoreFromHistory this now fs filePath index createBackup = Returns (r, fs') ->
  exists targetPath,
    (uriToPath filePath = Some targetPath
     \/ exists history, history ∈ getAllFileHistories this fs
                        /\ uriToPath (originalFilePath history) = Some targetPath)
    /\ (forall q, q <> targetPath -> q <> backup_path targetPath now ->
                  regular fs' q = regular fs q)
    /\ (forall q, existsSync fs q = true -> existsSync fs' q = true).
Proof.
unfold restoreFromHistory.
destruct (findHistoryByFilePath this fs filePath) as [[history|]|] eqn:Hfind;
  [| |discriminate].
- destruct (lookup_Some_decodes this fs filePath history Hfind)
    as (inputPath & originalPath & Hinput & Horig & Hin).
  destruct ((index <? 0)%Z || (index >=? Z.of_nat (length (entries history)))%Z).
  + intros [= <- <-]. exists inputPath. auto.
  + destruct (entries history !! Z.to_nat index) as [entry|]; [|discriminate].
    rewrite Horig, Hinput. intros [= Hrun].
    apply restore_target_frame in Hrun as (Hframe & _ & Hkeep).
    exists (if existsSync fs inputPath then inputPath else originalPath).
    split; [|auto]. destruct (existsSync fs inputPath); [now left|right; eauto].
- intros [= <- <-].
  unfold findHistoryByFilePath in Hfind.
  destruct (uriToPath filePath) as [t|]; [|discriminate]. exists t. auto.
Qed.

Lemma restore_touches_target_and_backup_only_witness :
  exists targetPath,
    (uriToPath (js "/a/b.txt") = Some targetPath
     \/ exists history, history ∈ getAllFileHistories Posix.parser Posix.store
                        /\ uriToPath (originalFilePath history) = Some targetPath)
    /\ (forall q, q <> targetPath -> q <> backup_path targetPath 1000 ->
                  regular Posix.store_restored_once q = regular Posix.store q)
    /\ (forall q, existsSync Posix.store q = true ->
                  existsSync Posix.store_restored_once q = true).
Proof.
apply (restore_touches_target_and_backup_only Posix.parser 1000 Posix.store (js "/a/b.txt")
         0 true (RestoredWithBackup (js "/a/b.txt") 0 (js "/a/b.txt.backup.1000") 200)).
apply outcome_parts. vm_compute. reflexivity.
Defined.

(** X17. With [createBackup = false] and a valid index, the call never
    takes the backup branch: it returns the failure result or the success
    result without backup, the target then holding the content of the
    entry, and no regular file other than the target is created or
    changed, a file at the backup path included. *)
Theorem restore_without_backup `{Host} this now fs filePath index history entry
  originalPath inputPath :
  findHistoryByFilePath this fs filePath = Returns (Some history) ->
  (0 <= index)%Z -> entries history !! Z.to_nat index = Some entry ->
  uriToPath (originalFilePath history) = Some originalPath ->
  uriToPath filePath = Some inputPath ->
  let targetPath := if existsSync fs inputPath then inputPath else originalPath in
  exists r fs',
    restoreFromHistory this now fs filePath index false = Returns (r, fs')
    /\ (forall q, q <> targetPath -> regular fs' q = regular fs q)
    /\ (r = RestoreFailed
        \/ r = RestoredWithoutBackup targetPath index (timestamp entry)
           /\ file_data fs' targetPath = Some (content entry)).
Proof.
intros Hfind Hpos Hentry Horig Hinput targetPath.
rewrite (restoreFromHistory_valid this now fs filePath index false
           history entry originalPath inputPath) by assumption.
fold targetPath.
destruct (restore_target now fs targetPath entry index false) as [r fs'] eqn:Hrun.
exists r, fs'. split; [reflexivity|].
destruct (restore_target_frame _ _ _ _ _ _ _ _ Hrun) as (_ & Hframe & _).
split; [now apply Hframe|].
destruct (restore_target_plain _ _ _ _ _ _ _ Hrun) as [->|Hr]; [now left|right].
split; [assumption|].
apply (restore_target_success _ _ _ _ _ _ _ _ Hrun). rewrite Hr. discriminate.
Qed.

Lemma restore_without_backup_witness :
  exists r fs',
    restoreFromHistory Posix.parser 1000 Posix.store (js "/a/b.txt") 0 false
    = Returns (r, fs')
    /\ (forall q, q <> js "/a/b.txt" -> regular fs' q = regular Posix.store q)
    /\ (r = RestoreFailed
        \/ r = RestoredWithoutBackup (js "/a/b.txt") 0 200
           /\ file_data fs' (js "/a/b.txt") = Some (js "second draft")).
Proof.
apply (restore_without_backup Posix.parser 1000 Posix.store (js "/a/b.txt") 0
         Posix.upper_history
         (Posix.snapshot (js "d1") (js "x2") 200 (js "second draft"))
         (js "/A/b.txt") (js "/a/b.txt"));
  [vm_compute; reflexivity| lia | reflexivity | reflexivity | reflexivity].
Defined.

Example restore_without_backup_overwrites :
  Posix.response_of
    (restoreFromHistory Posix.parser 1000 Posix.store (js "/a/b.txt") 0 false)
  = Some (RestoredWithoutBackup (js "/a/b.txt") 0 200)
  /\ size (Posix.state_after
             (restoreFromHistory Posix.parser 1000 Posix.store (js "/a/b.txt") 0 false)
             Posix.store)
     = size Posix.store.
Proof. vm_compute. split; reflexivity. Qed.

(** ** The list of files *)

(** X19. [listHistoryFiles] and [getHistoryStats] agree: the list has one
    item for each FileHistory, in the same order, the entry counts of the
    items add up to [totalEntries], and the time an item shows as last
    saved is that of the latest snapshot of its file, or time 0 when the
    file has no entry. *)
Theorem fileList_agrees_with_stats `{Host} toISOString this fs :
  length (fileList toISOString this fs) = totalFiles (getHistoryStats this fs)
  /\ sum_list (map entryCount (fileList toISOString this fs))
     = totalEntries (getHistoryStats this fs)
  /\ forall (k : nat) item,
      fileList toISOString this fs !! k = Some item ->
      exists history latest,
        getAllFileHistories this fs !! k = Some history
        /\ listedPath item = originalFilePath history
        /\ entryCount item = length (entries history)
        /\ lastModified item = toISOString latest
        /\ (forall e, e ∈ entries history -> (timestamp e <= latest)%Z)
        /\ match entries history with
           | [] => latest = 0%Z
           | _ => exists e, e ∈ entries history /\ timestamp e = latest
           end.
Proof.
unfold fileList, getHistoryStats. cbn [totalFiles totalEntries].
split; [apply length_map|]. split.
- rewrite fold_left_lengths. cbn [Nat.add]. now rewrite map_map.
- intros k item Hk.
  change (map ?f ?l) with (f <$> l) in Hk. rewrite list_lookup_fmap in Hk.
  destruct (getAllFileHistories this fs !! k) as [history|] eqn:Hh; [|discriminate].
  cbn in Hk. injection Hk as <-. cbn [listedPath entryCount lastModified].
  exists history, (first_timestamp_or_zero history).
  repeat (split; [reflexivity|]).
  assert (StronglySorted recency_then_name (entries history)) as Hsorted.
  { apply list_elem_of_lookup_2 in Hh.
    apply getAllFileHistories_elem in Hh as (hashDir & _ & Hget).
    exact (getFileHistory_order this fs hashDir history Hget). }
  unfold first_timestamp_or_zero.
  destruct (entries history) as [|e0 rest]; cbn [head].
  + split; [|reflexivity]. intros e []%elem_of_nil.
  + assert ((if decide (timestamp e0 = 0%Z) then 0%Z else timestamp e0) = timestamp e0)
      as -> by (case_decide; congruence).
    split.
    * intros e [->|He]%elem_of_cons; [lia|].
      inversion Hsorted as [|? ? _ Hall]; subst. rewrite Forall_forall in Hall.
      specialize (Hall e He). unfold recency_then_name in Hall. lia.
    * exists e0. split; [apply elem_of_cons; now left|reflexivity].
Qed.

Example store_file_list :
  fileList showZ Posix.parser Posix.store
  = [ {| listedPath := js "/x/notes.md"; entryCount := 1; lastModified := js "70" |};
      {| listedPath := js "/A/b.txt"; entryCount := 2; lastModified := js "200" |};
      {| listedPath := js "/a/b.txt"; entryCount := 2; lastModified := js "400" |} ].
Proof. vm_compute. reflexivity. Qed.

(** ** Search: how many matches *)

Section CountFacts.
Context `{Host}.
Import RegExp.

Lemma matches_here_length flag p s :
  matches_here flag p s = true -> (length p <= length s)%nat.
Proof.
intros (mid & rest & -> & Hall)%matches_here_spec.
rewrite (Forall2_length _ _ _ Hall), length_app. lia.
Qed.

(** The matches of a pattern that is not empty do not overlap. *)
Lemma match_global_bound r : forall s skip,
  pattern r <> [] -> (skip <= length s)%nat ->
  (length (match_global r skip s) * length (pattern r) + skip <= length s)%nat.
Proof.
intros s skip Hp. revert skip.
induction s as [|c s IH]; intros skip Hskip; cbn [match_global length] in *.
- destruct skip; [|lia].
  destruct (matches_here (ignoreCase r) (pattern r) []) eqn:Hm; [|cbn; lia].
  apply matches_here_length in Hm. destruct (pattern r); [contradiction|cbn in Hm; lia].
- destruct skip as [|k].
  + destruct (matches_here (ignoreCase r) (pattern r) (c :: s)) eqn:Hm.
    * apply matches_here_length in Hm. cbn [length] in Hm |- *.
      destruct (pattern r) as [|a p] eqn:Hpat; [contradiction|].
      cbn [length Nat.pred] in *.
      specialize (IH (length p) ltac:(lia)). lia.
    * specialize (IH 0%nat ltac:(lia)). lia.
  + specialize (IH k ltac:(lia)). lia.
Qed.

(** The empty pattern matches once at every position, the end included. *)
Lemma match_global_empty r s :
  pattern r = [] -> length (match_global r 0 s) = S (length s).
Proof.
intros Hp. induction s as [|c s IH]; cbn [match_global]; rewrite Hp; cbn [matches_here].
- reflexivity.
- cbn [length Nat.pred take]. now rewrite IH.
Qed.

Lemma occurrences_bound caseSensitive term text :
  (occurrences caseSensitive term text * length term <= length text)%nat
  /\ (term = [] -> occurrences caseSensitive term text = S (length text)).
Proof.
unfold occurrences.
set (r := {| pattern := term; ignoreCase := negb caseSensitive |}).
split.
- destruct (decide (term = [])) as [->|Hterm]; [cbn; lia|].
  pose proof (match_global_bound r text 0%nat Hterm ltac:(lia)) as Hb.
  cbn [pattern r] in Hb. lia.
- intros ->. now apply match_global_empty.
Qed.

Lemma contains_caseless term text : contains true term text -> contains false term text.
Proof.
intros (pre & post & ->). exists pre, term, post. split; [reflexivity|].
clear. induction term; constructor; auto.
Qed.

Lemma omap_imap_length {A B} (f : nat -> A -> option B) (l : list A) :
  (forall i a, f i a <> None) -> length (omap id (imap f l)) = length l.
Proof.
revert f. induction l as [|a l IH]; intros f Hf; [reflexivity|].
rewrite imap_cons. cbn [omap list_omap].
destruct (f 0%nat a) eqn:Hfa; [|now destruct (Hf 0%nat a)].
cbn. f_equal. apply IH. intros i a'. apply Hf.
Qed.

Lemma flat_map_length {A B} (f : A -> list B) (l : list A) :
  length (flat_map f l) = sum_list (map (fun a => length (f a)) l).
Proof.
induction l as [|a l IH]; [reflexivity|].
cbn [flat_map map sum_list]. rewrite length_app, IH. reflexivity.
Qed.
End CountFacts.

(** X20. The matches a record counts do not overlap: the count is at
    least one and, multiplied by the length of the search term, at most
    the length of the content of the entry at the index the record gives.
    For the empty term it is the length of the content plus one. *)
Theorem match_counts_are_bounded `{Host} this fs searchTerm caseSensitive results result :
  search_results this fs searchTerm caseSensitive = Some results ->
  result ∈ results ->
  exists history entry,
    history ∈ getAllFileHistories this fs
    /\ file result = originalFilePath history
    /\ entries history !! entryIndex result = Some entry
    /\ (1 <= matchCount result)%nat
    /\ (matchCount result * length searchTerm <= length (content entry))%nat
    /\ (searchTerm = [] -> matchCount result = S (length (content entry))).
Proof.
unfold search_results. rewrite make_escape_term. intros [= <-] Hin.
apply list_elem_of_In, in_flat_map in Hin as (history & Hh & Hres).
apply list_elem_of_In in Hh, Hres.
apply search_entries_elem in Hres as (index & entry & Hentry & Hcontains & ->).
exists history, entry. cbn [file entryIndex matchCount].
repeat (split; [assumption || reflexivity|]).
destruct (occurrences_bound caseSensitive searchTerm (content entry)) as [Hbound Hempty].
split; [|split; assumption].
apply string_match_contains in Hcontains. unfold occurrences.
destruct (RegExp.match_global _ 0 (content entry)); [contradiction|cbn; lia].
Qed.

Lemma match_counts_are_bounded_witness :
  exists history entry,
    history ∈ getAllFileHistories Posix.parser Posix.store
    /\ js "/a/b.txt" = originalFilePath history
    /\ entries history !! 1%nat = Some entry
    /\ (1 <= 3)%nat
    /\ (3 * length (js "foo") <= length (content entry))%nat
    /\ (js "foo" = [] -> 3%nat = S (length (content entry))).
Proof.
apply (match_counts_are_bounded Posix.parser Posix.store (js "foo") false
         [ {| file := js "/a/b.txt"; entryIndex := 1;
              timestamp_text := js "300"; matchCount := 3 |} ]
         {| file := js "/a/b.txt"; entryIndex := 1;
            timestamp_text := js "300"; matchCount := 3 |}).
- vm_compute. reflexivity.
- apply elem_of_cons. now left.
Defined.

(** X21. A search for the empty term reports every entry of every
    history: it returns as many records as [getHistoryStats] counts
    entries. *)
Theorem empty_term_reports_every_entry `{Host} this fs caseSensitive :
  exists results,
    search_results this fs [] caseSensitive = Some results
    /\ length results = totalEntries (getHistoryStats this fs).
Proof.
unfold search_results. rewrite make_escape_term. eexists. split; [reflexivity|].
unfold getHistoryStats. cbn [totalEntries]. rewrite fold_left_lengths, flat_map_length.
cbn [Nat.add]. f_equal. apply map_ext. intros history.
unfold search_entries. apply omap_imap_length. intros i entry.
unfold RegExp.string_match.
pose proof (match_global_empty
              {| RegExp.pattern := []; RegExp.ignoreCase := negb caseSensitive |}
              (content entry) eq_refl) as Hlen.
destruct (RegExp.match_global _ 0 (content entry)); [discriminate|discriminate].
Qed.

(** X22. Whatever a case-sensitive search reports, the search without
    case reports too: for each record of the first there is a record of
    the second for the same file and the same entry. *)
Theorem case_sensitive_results_are_caseless `{Host} this fs searchTerm :
  exists exact caseless,
    search_results this fs searchTerm true = Some exact
    /\ search_results this fs searchTerm false = Some caseless
    /\ forall result, result ∈ exact ->
         exists result', result' ∈ caseless
                         /\ file result' = file result
                         /\ entryIndex result' = entryIndex result
                         /\ timestamp_text result' = timestamp_text result.
Proof.
unfold search_results. rewrite !make_escape_term.
eexists _, _. split; [reflexivity|]. split; [reflexivity|].
intros result Hin.
apply list_elem_of_In, in_flat_map in Hin as (history & Hh & Hres).
apply list_elem_of_In in Hres.
apply (search_entries_elem true) in Hres as (index & entry & Hentry & Hcontains & ->).
eexists. split.
- apply list_elem_of_In, in_flat_map. exists history. split; [assumption|].
  apply list_elem_of_In. apply (search_entries_elem false).
  exists index, entry. split; [assumption|]. split; [|reflexivity].
  now apply contains_caseless.
- now cbn.
Qed.

(** X23. [searchHistoryContent] answers that nothing was found exactly
    when no entry of any history contains the term. *)
Theorem no_matches_iff_term_absent `{Host} this fs searchTerm caseSensitive :
  searchHistoryContent this fs searchTerm caseSensitive = Some (NoMatchesFound searchTerm)
  <-> forall history entry,
        history ∈ getAllFileHistories this fs -> entry ∈ entries history ->
        ~ contains caseSensitive searchTerm (content entry).
Proof.
unfold searchHistoryContent, search_results. rewrite make_escape_term.
set (r := {| RegExp.pattern := searchTerm; RegExp.ignoreCase := negb caseSensitive |}).
destruct (flat_map (search_entries r) (getAllFileHistories this fs))
  as [|result results] eqn:Hflat.
- split; [|reflexivity]. intros _ history entry Hh [index Hentry]%list_elem_of_lookup_1 Hc.
  assert ({| file := originalFilePath history; entryIndex := index;
             timestamp_text := toLocaleString (timestamp entry);
             matchCount := occurrences caseSensitive searchTerm (content entry) |}
          ∈ flat_map (search_entries r) (getAllFileHistories this fs)) as Hin.
  { apply list_elem_of_In, in_flat_map. exists history.
    split; [now apply list_elem_of_In|]. apply list_elem_of_In.
    apply search_entries_elem. now exists index, entry. }
  rewrite Hflat in Hin. now apply elem_of_nil in Hin.
- split; [discriminate|]. intros Habsent. exfalso.
  assert (result ∈ flat_map (search_entries r) (getAllFileHistories this fs)) as Hin
    by (rewrite Hflat; apply elem_of_cons; now left).
  apply list_elem_of_In, in_flat_map in Hin as (history & Hh & Hres).
  apply list_elem_of_In in Hh, Hres.
  apply search_entries_elem in Hres as (index & entry & Hentry & Hcontains & _).
  apply (Habsent history entry Hh); [|assumption].
  eapply list_elem_of_lookup_2. exact Hentry.
Qed.

Example search_without_hit :
  searchHistoryContent Posix.parser Posix.store (js "a*b") false
  = Some (NoMatchesFound (js "a*b")).
Proof. vm_compute. reflexivity. Qed.
